(** * stdutil/log: a shallow embedding of [log.go] and its properties

    The Go package keeps an ordered buffer of categorised messages
    ([Log], [LogInfo]), answers aggregate queries about it ([HasErrors],
    [Prevailing], ...) and renders it as text ([ToString]).

    Layout of this development:
    - [GoInt], [strings]: the pieces of the Go language and standard
      library the package relies on (machine [int], [strings.Builder],
      a reference model of [strings.TrimSpace]);
    - the value-level embedding of [log.go]: a [Log] whose [ln] field is
      the sequence of messages held by the slice;
    - [Mem]: the same operations over an explicit store of backing
      arrays, where a slice is a (pointer, length, capacity) header, so
      that sharing between the log and a slice handed out by [Notes] can
      be stated;
    - the properties. *)

From Stdlib Require Import String Ascii ZArith Lia Bool List.
From stdpp Require Import list.
Import ListNotations.

Local Open Scope string_scope.
Local Open Scope list_scope.

(** ** Go's [int] *)

Module GoInt.

(** [int] is a two's complement integer, taken here at its 64-bit width;
    [wrap] is the reduction every arithmetic result undergoes.  The
    proofs below use one fact about the width: the length of a slice is
    itself an [int], so it is at most [MaxInt]. *)
Definition intSize : Z := 64.
Definition MaxInt : Z := 2 ^ (intSize - 1) - 1.
Definition MinInt : Z := - 2 ^ (intSize - 1).

Definition wrap (x : Z) : Z :=
  (x + 2 ^ (intSize - 1)) mod 2 ^ intSize - 2 ^ (intSize - 1).

(** [x++] *)
Definition incr (x : Z) : Z := wrap (x + 1).

End GoInt.

(** ** The standard library's [strings] package *)

Module strings.

(** [strings.Builder]: the bytes written so far. *)
Definition Builder := string.
Definition Builder_zero : Builder := "".
Definition Write (sb : Builder) (p : string) : Builder := (sb ++ p)%string.
Definition String_ (sb : Builder) : string := sb.

(** A reference model of [strings.TrimSpace], used to run the package on
    concrete inputs.  A Go string is a byte sequence; white space is what
    [unicode.IsSpace] accepts: the six ASCII bytes below and the runes
    U+0085, U+00A0, U+1680, U+2000..U+200A, U+2028, U+2029, U+202F,
    U+205F, U+3000 in their UTF-8 encoding. *)
Definition asciiSpace (c : ascii) : bool :=
  match nat_of_ascii c with
  | 9 | 10 | 11 | 12 | 13 | 32 => true
  | _ => false
  end.

Definition bytes (l : list nat) : string :=
  string_of_list_ascii (List.map ascii_of_nat l).

Definition unicodeSpace : list string :=
  List.map bytes
    ([ [194; 133]; [194; 160]; [225; 154; 128] ]
     ++ List.map (fun b => [226; 128; b]) (seq 128 11)
     ++ [ [226; 128; 168]; [226; 128; 169]; [226; 128; 175];
          [226; 129; 159]; [227; 128; 128] ]).

Fixpoint dropPrefix (p s : string) : option string :=
  match p, s with
  | EmptyString, _ => Some s
  | String a p', String b s' =>
      if Ascii.eqb a b then dropPrefix p' s' else None
  | String _ _, EmptyString => None
  end.

Fixpoint firstSome {A} (f : string -> option A) (l : list string) : option A :=
  match l with
  | [] => None
  | p :: l' => match f p with Some r => Some r | None => firstSome f l' end
  end.

Fixpoint revString (acc s : string) : string :=
  match s with
  | EmptyString => acc
  | String c s' => revString (String c acc) s'
  end.

(** Strip one white-space rune from the front, if there is one. *)
Definition dropSpace (encs : list string) (s : string) : option string :=
  match s with
  | EmptyString => None
  | String c s' =>
      if asciiSpace c then Some s'
      else firstSome (fun p => dropPrefix p s) encs
  end.

Fixpoint trimLeft (encs : list string) (fuel : nat) (s : string) : string :=
  match fuel with
  | O => s
  | S fuel' =>
      match dropSpace encs s with
      | Some s' => trimLeft encs fuel' s'
      | None => s
      end
  end.

Definition TrimLeft (s : string) : string :=
  trimLeft unicodeSpace (String.length s) s.

Definition TrimRight (s : string) : string :=
  revString ""
    (trimLeft (List.map (revString "") unicodeSpace) (String.length s)
       (revString "" s)).

Definition TrimSpace (s : string) : string := TrimRight (TrimLeft s).

End strings.

(** ** Data model of [log.go] *)

(** [type LogType string] *)
Definition LogType := string.

Definition Info    : LogType := "INF".
Definition Warn    : LogType := "WRN".
Definition Error   : LogType := "ERR".
Definition Fatal   : LogType := "FTL".
Definition Success : LogType := "SUC".
Definition App     : LogType := "".

Definition DelimMsgType : string := ": ".

(** [type LogInfo struct { Type LogType; Prefix string; Message string }] *)
Record LogInfo := mkLogInfo {
  lni_Type    : LogType;
  lni_Prefix  : string;
  lni_Message : string
}.

(** [type Log struct { Prefix string; ln []LogInfo; osIsWin bool }], with
    the slice [ln] taken as the sequence of its elements. *)
Record Log := mkLog {
  Prefix  : string;
  ln      : list LogInfo;
  osIsWin : bool
}.

(** [NewLog]; the host's [runtime.GOOS] is an explicit argument. *)
Definition NewLog (GOOS : string) (prefix : string) : Log :=
  {| Prefix := prefix; ln := []; osIsWin := (GOOS =? "windows") |}.

(** The assignment [r.Prefix = p], open to every caller since the field
    is exported. *)
Definition setPrefix (p : string) (r : Log) : Log :=
  {| Prefix := p; ln := ln r; osIsWin := osIsWin r |}.

(** The assignment [r.ln = l] made by the methods of the package. *)
Definition set_ln (l : list LogInfo) (r : Log) : Log :=
  {| Prefix := Prefix r; ln := l; osIsWin := osIsWin r |}.

Section Adding.

(** [strings.TrimSpace] of the standard library. *)
Variable TrimSpace : string -> string.

(** [addMessage(nt, prefix, msg, typ)]: the new value of [*nt]. *)
Definition addMessage (nt : list LogInfo) (prefix msg : string)
    (typ : LogType) : list LogInfo :=
  let msg := TrimSpace msg in
  nt ++ [ {| lni_Type := typ; lni_Prefix := prefix; lni_Message := msg |} ].

(** [for _, m := range msg { addMessage(&r.ln, r.Prefix, m, typ) }] *)
Definition AddInfo (msg : list string) (r : Log) : Log :=
  fold_left (fun r m => set_ln (addMessage (ln r) (Prefix r) m Info) r) msg r.

Definition AddWarning (msg : list string) (r : Log) : Log :=
  fold_left (fun r m => set_ln (addMessage (ln r) (Prefix r) m Warn) r) msg r.

Definition AddError (msg : list string) (r : Log) : Log :=
  fold_left (fun r m => set_ln (addMessage (ln r) (Prefix r) m Error) r) msg r.

Definition AddSuccess (msg : list string) (r : Log) : Log :=
  fold_left (fun r m => set_ln (addMessage (ln r) (Prefix r) m Success) r) msg r.

Definition AddAppMsg (msg : list string) (r : Log) : Log :=
  fold_left (fun r m => set_ln (addMessage (ln r) (Prefix r) m App) r) msg r.

End Adding.

(** [r.ln = append(r.ln, ln...)] *)
Definition Append (batch : list LogInfo) (r : Log) : Log :=
  set_ln (ln r ++ batch) r.

(** [r.ln = []LogInfo{}] *)
Definition Clear (r : Log) : Log := set_ln [] r.

(** The four scans, each returning at the first match. *)
Fixpoint HasErrors_loop (l : list LogInfo) : bool :=
  match l with
  | [] => false
  | x :: l' => if lni_Type x =? Error then true else HasErrors_loop l'
  end.
Definition HasErrors (r : Log) : bool := HasErrors_loop (ln r).

Fixpoint HasWarnings_loop (l : list LogInfo) : bool :=
  match l with
  | [] => false
  | x :: l' => if lni_Type x =? Warn then true else HasWarnings_loop l'
  end.
Definition HasWarnings (r : Log) : bool := HasWarnings_loop (ln r).

Fixpoint HasInfos_loop (l : list LogInfo) : bool :=
  match l with
  | [] => false
  | x :: l' => if lni_Type x =? Info then true else HasInfos_loop l'
  end.
Definition HasInfos (r : Log) : bool := HasInfos_loop (ln r).

Fixpoint HasSucceses_loop (l : list LogInfo) : bool :=
  match l with
  | [] => false
  | x :: l' => if lni_Type x =? Success then true else HasSucceses_loop l'
  end.
Definition HasSucceses (r : Log) : bool := HasSucceses_loop (ln r).

(** [getDominantNoteType]: the four counters, the [switch] of the loop
    body and the four comparisons after the loop. *)
Record counters := mkCounters { nfo : Z; wrn : Z; err : Z; suc : Z }.

Definition count_step (c : counters) (msg : LogInfo) : counters :=
  if lni_Type msg =? Info then
    {| nfo := GoInt.incr (nfo c); wrn := wrn c; err := err c; suc := suc c |}
  else if lni_Type msg =? Warn then
    {| nfo := nfo c; wrn := GoInt.incr (wrn c); err := err c; suc := suc c |}
  else if lni_Type msg =? Error then
    {| nfo := nfo c; wrn := wrn c; err := GoInt.incr (err c); suc := suc c |}
  else if lni_Type msg =? Success then
    {| nfo := nfo c; wrn := wrn c; err := err c; suc := GoInt.incr (suc c) |}
  else c.

Definition count_all (msgs : list LogInfo) : counters :=
  fold_left count_step msgs {| nfo := 0; wrn := 0; err := 0; suc := 0 |}.

Definition getDominantNoteType (msgs : list LogInfo) : LogType :=
  let c := count_all msgs in
  if (nfo c >? wrn c)%Z && (nfo c >? err c)%Z && (nfo c >? suc c)%Z then Info
  else if (wrn c >? nfo c)%Z && (wrn c >? err c)%Z && (wrn c >? suc c)%Z then Warn
  else if (err c >? nfo c)%Z && (err c >? wrn c)%Z && (err c >? suc c)%Z then Error
  else if (suc c >? nfo c)%Z && (suc c >? wrn c)%Z && (suc c >? err c)%Z then Success
  else App.

Definition Prevailing (r : Log) : LogType := getDominantNoteType (ln r).

(** [Notes] hands out the [ln] field. *)
Definition Notes (r : Log) : list LogInfo := ln r.

(** [ToString] of a [LogInfo] *)
Definition LogInfo_ToString (lni : LogInfo) : string :=
  let td := "" in
  let td :=
    if negb (lni_Type lni =? App) then
      let td := (td ++ lni_Type lni)%string in
      let td :=
        if negb (lni_Prefix lni =? "")
        then (td ++ ("[" ++ lni_Prefix lni ++ "]"))%string
        else td in
      (td ++ DelimMsgType)%string
    else td in
  (td ++ lni_Message lni)%string.

(** [ToString] of a [Log] *)
Definition Log_ToString (r : Log) : string :=
  let lf := if osIsWin r then String "013" (String "010" "") else String "010" "" in
  let sb :=
    fold_left (fun sb v => strings.Write sb (LogInfo_ToString v ++ lf)%string)
      (ln r) strings.Builder_zero in
  strings.String_ sb.

(** ** Sequences of calls *)

(** What a client of the package can do to a log it owns. *)
Inductive call :=
| CallAddInfo (msg : list string)
| CallAddWarning (msg : list string)
| CallAddError (msg : list string)
| CallAddSuccess (msg : list string)
| CallAddAppMsg (msg : list string)
| CallAppend (batch : list LogInfo)
| CallClear
| CallSetPrefix (p : string).

Definition exec (TrimSpace : string -> string) (c : call) (r : Log) : Log :=
  match c with
  | CallAddInfo msg => AddInfo TrimSpace msg r
  | CallAddWarning msg => AddWarning TrimSpace msg r
  | CallAddError msg => AddError TrimSpace msg r
  | CallAddSuccess msg => AddSuccess TrimSpace msg r
  | CallAddAppMsg msg => AddAppMsg TrimSpace msg r
  | CallAppend batch => Append batch r
  | CallClear => Clear r
  | CallSetPrefix p => setPrefix p r
  end.

Definition run (TrimSpace : string -> string) (cs : list call) (r : Log) : Log :=
  fold_left (fun r c => exec TrimSpace c r) cs r.

(** ** The package over a store of backing arrays *)

Module Mem.

(** A slice header: the address of the backing array, [len] and [cap].
    Every slice of the package starts at the first cell of its array. *)
Record slice := mkSlice { ptr : nat; len : nat; cap : nat }.

(** The store maps an address to the cells of the array allocated
    there; a fresh array gets the next free address. *)
Abbreviation store := (list (list LogInfo)).

Definition zero : LogInfo :=
  {| lni_Type := ""; lni_Prefix := ""; lni_Message := "" |}.

Definition cells (h : store) (p : nat) : list LogInfo :=
  default [] (h !! p).

Definition alloc (arr : list LogInfo) (h : store) : nat * store :=
  (length h, h ++ [arr]).

(** The elements [s[0]], ..., [s[len(s)-1]]. *)
Definition elems (h : store) (s : slice) : list LogInfo :=
  take (len s) (cells h (ptr s)).

(** [s[i] = v]; out of range the assignment panics ([None]). *)
Definition setIndex (s : slice) (i : nat) (v : LogInfo) (h : store)
    : option store :=
  if (i <? len s)%nat then Some (<[ptr s := <[i := v]> (cells h (ptr s))]> h)
  else None.

(** [make([]LogInfo, 0)] and the literal [[]LogInfo{}]. *)
Definition empty (h : store) : slice * store :=
  let (p, h') := alloc [] h in
  ({| ptr := p; len := 0; cap := 0 |}, h').

Record Log := mkLog {
  Prefix  : string;
  ln      : slice;
  osIsWin : bool
}.

Definition set_ln (s : slice) (r : Log) : Log :=
  {| Prefix := Prefix r; ln := s; osIsWin := osIsWin r |}.

Definition setPrefix (p : string) (r : Log) : Log :=
  {| Prefix := p; ln := ln r; osIsWin := osIsWin r |}.

Definition NewLog (GOOS prefix : string) (h : store) : Log * store :=
  let (s, h') := empty h in
  ({| Prefix := prefix; ln := s; osIsWin := (GOOS =? "windows") |}, h').

Definition Clear (r : Log) (h : store) : Log * store :=
  let (s, h') := empty h in (set_ln s r, h').

(** [Notes] returns the header stored in the log, not a copy of the
    array behind it. *)
Definition Notes (r : Log) : slice := ln r.

Section Runtime.

Variable TrimSpace : string -> string.

(** The capacity the runtime picks when [append] has to reallocate,
    from the old capacity and the length needed. *)
Variable growcap : nat -> nat -> nat.

(** The built-in [append(s, vs...)]: in place when the capacity
    allows, otherwise into a fresh array. *)
Definition append (s : slice) (vs : list LogInfo) (h : store)
    : slice * store :=
  let n := len s + length vs in
  if (n <=? cap s)%nat then
    let arr := cells h (ptr s) in
    ({| ptr := ptr s; len := n; cap := cap s |},
     <[ptr s := take (len s) arr ++ vs ++ drop n arr]> h)
  else
    let c := growcap (cap s) n in
    let (p, h') := alloc (elems h s ++ vs ++ replicate (c - n) zero) h in
    ({| ptr := p; len := n; cap := c |}, h').

Definition addMessage (nt : slice) (prefix msg : string) (typ : LogType)
    (h : store) : slice * store :=
  let msg := TrimSpace msg in
  append nt
    [ {| lni_Type := typ; lni_Prefix := prefix; lni_Message := msg |} ] h.

(** The five categorised adds run the same loop and differ in the
    constant they pass to [addMessage]. *)
Definition addAll (typ : LogType) (msg : list string) (r : Log) (h : store)
    : Log * store :=
  fold_left
    (fun st m =>
       let (s, h') := addMessage (ln (fst st)) (Prefix (fst st)) m typ (snd st) in
       (set_ln s (fst st), h'))
    msg (r, h).

Definition AddInfo := addAll Info.
Definition AddWarning := addAll Warn.
Definition AddError := addAll Error.
Definition AddSuccess := addAll Success.
Definition AddAppMsg := addAll App.

Definition Append (batch : list LogInfo) (r : Log) (h : store)
    : Log * store :=
  let (s, h') := append (ln r) batch h in (set_ln s r, h').

Definition exec (c : call) (r : Log) (h : store) : Log * store :=
  match c with
  | CallAddInfo msg => AddInfo msg r h
  | CallAddWarning msg => AddWarning msg r h
  | CallAddError msg => AddError msg r h
  | CallAddSuccess msg => AddSuccess msg r h
  | CallAddAppMsg msg => AddAppMsg msg r h
  | CallAppend batch => Append batch r h
  | CallClear => Clear r h
  | CallSetPrefix p => (setPrefix p r, h)
  end.

Definition run (cs : list call) (r : Log) (h : store) : Log * store :=
  fold_left (fun st c => exec c (fst st) (snd st)) cs (r, h).

End Runtime.

(** A header is well formed in a store when its array is allocated
    with [cap] cells and [len] does not exceed [cap]. *)
Definition wf (h : store) (s : slice) : Prop :=
  exists arr, h !! ptr s = Some arr /\ length arr = cap s /\ len s <= cap s.

End Mem.

(** The log a store and a log object stand for. *)
Definition abs (h : Mem.store) (r : Mem.Log) : Log :=
  {| Prefix := Mem.Prefix r;
     ln := Mem.elems h (Mem.ln r);
     osIsWin := Mem.osIsWin r |}.

(** ** Vocabulary of the statements *)

(** Number of messages of a given type. *)
Definition countType (t : LogType) (l : list LogInfo) : nat :=
  length (List.filter (fun m => lni_Type m =? t) l).

(** [t] has strictly more messages than each of the three other tallied
    types [a], [b], [c]. *)
Definition strictWinner (l : list LogInfo) (t a b c : LogType) : Prop :=
  countType a l < countType t l /\
  countType b l < countType t l /\
  countType c l < countType t l.

(** The message a categorised add builds from one argument. *)
Definition stamped (TrimSpace : string -> string) (typ : LogType)
    (prefix : string) (s : string) : LogInfo :=
  {| lni_Type := typ; lni_Prefix := prefix; lni_Message := TrimSpace s |}.

(** The line a message is rendered as, by category. *)
Definition line (code prefix text : string) : string :=
  (code ++ (if prefix =? "" then "" else "[" ++ prefix ++ "]") ++ ": " ++ text)%string.

(** The two newlines. *)
Definition nl : string := String "010" "".
Definition crnl : string := String "013" (String "010" "").

Definition endsWith (suffix s : string) : Prop :=
  exists front, s = (front ++ suffix)%string.

(** The messages a sequence of calls leaves in a log, read off the calls
    alone: the prefix in force and the messages so far. *)
Definition history_step (TrimSpace : string -> string)
    (st : string * list LogInfo) (c : call) : string * list LogInfo :=
  let (p, l) := st in
  match c with
  | CallAddInfo msg => (p, l ++ List.map (stamped TrimSpace Info p) msg)
  | CallAddWarning msg => (p, l ++ List.map (stamped TrimSpace Warn p) msg)
  | CallAddError msg => (p, l ++ List.map (stamped TrimSpace Error p) msg)
  | CallAddSuccess msg => (p, l ++ List.map (stamped TrimSpace Success p) msg)
  | CallAddAppMsg msg => (p, l ++ List.map (stamped TrimSpace App p) msg)
  | CallAppend batch => (p, l ++ batch)
  | CallClear => (p, [])
  | CallSetPrefix p' => (p', l)
  end.

Definition history (TrimSpace : string -> string) (cs : list call)
    (prefix : string) : list LogInfo :=
  snd (fold_left (history_step TrimSpace) cs (prefix, [])).

(** The calls that keep what is stored: all but Clear. *)
Definition keepsMessages (c : call) : bool :=
  match c with
  | CallClear => false
  | _ => true
  end.

(** The messages [getDominantNoteType] counts. *)
Definition tallied (m : LogInfo) : bool :=
  (lni_Type m =? Info) || (lni_Type m =? Warn)
  || (lni_Type m =? Error) || (lni_Type m =? Success).

(** * Properties *)

(** ** Go's [int] *)

Lemma wrap_small x : (GoInt.MinInt <= x <= GoInt.MaxInt)%Z -> GoInt.wrap x = x.
Proof.
  unfold GoInt.wrap, GoInt.MinInt, GoInt.MaxInt, GoInt.intSize. intros Hx.
  rewrite Z.mod_small; lia.
Qed.

Lemma incr_small x : (0 <= x < GoInt.MaxInt)%Z -> GoInt.incr x = (x + 1)%Z.
Proof.
  intros Hx. unfold GoInt.incr. apply wrap_small.
  unfold GoInt.MinInt, GoInt.MaxInt, GoInt.intSize in *. lia.
Qed.

(** ** Concrete runs *)

Example trim_hello : strings.TrimSpace "  hello  " = "hello".
Proof. reflexivity. Qed.

Example render_info_X :
  List.map LogInfo_ToString
    (Notes (AddInfo strings.TrimSpace ["  hello  "] (NewLog "linux" "X")))
  = ["INF[X]: hello"].
Proof. reflexivity. Qed.

Example end_to_end :
  let r := AddSuccess strings.TrimSpace ["recovered"]
             (AddError strings.TrimSpace ["disk full"]
                (AddInfo strings.TrimSpace ["started"] (NewLog "linux" "APP"))) in
  Log_ToString r
    = ("INF[APP]: started" ++ nl ++ "ERR[APP]: disk full" ++ nl
       ++ "SUC[APP]: recovered" ++ nl)%string
  /\ Prevailing r = App.
Proof. split; reflexivity. Qed.

(** ** Strings *)

Lemma append_assoc (a b c : string) : ((a ++ b) ++ c = a ++ (b ++ c))%string.
Proof. induction a as [|x a IH]; simpl; [reflexivity | now rewrite IH]. Qed.

Lemma append_empty_r (a : string) : (a ++ "")%string = a.
Proof. induction a as [|x a IH]; simpl; [reflexivity | now rewrite IH]. Qed.

(** ** Rendering one message *)

(** C3. A message of type App renders as its text alone, whatever its
    prefix; any other message renders as its type code, then the prefix
    in square brackets when the prefix is not empty, then the delimiter
    colon-space, then the text.  The codes are INF, WRN, ERR, FTL and SUC
    for Info, Warn, Error, Fatal and Success. *)
Theorem LogInfo_ToString_spec (t : LogType) (p m : string) :
  LogInfo_ToString (mkLogInfo App p m) = m /\
  LogInfo_ToString (mkLogInfo t p m)
    = (if t =? App then m
       else if p =? "" then t ++ ": " ++ m
       else t ++ "[" ++ p ++ "]" ++ ": " ++ m)%string /\
  LogInfo_ToString (mkLogInfo Info p m) = line "INF" p m /\
  LogInfo_ToString (mkLogInfo Warn p m) = line "WRN" p m /\
  LogInfo_ToString (mkLogInfo Error p m) = line "ERR" p m /\
  LogInfo_ToString (mkLogInfo Fatal p m) = line "FTL" p m /\
  LogInfo_ToString (mkLogInfo Success p m) = line "SUC" p m.
Proof.
  assert (Hgen : forall c, c <> App ->
            LogInfo_ToString (mkLogInfo c p m) = line c p m).
  { intros c Hc. apply String.eqb_neq in Hc.
    unfold LogInfo_ToString, line, DelimMsgType; cbn [lni_Type lni_Prefix lni_Message].
    rewrite Hc. cbn [negb].
    destruct (p =? "")%string; cbn [negb];
      rewrite ?append_assoc; reflexivity. }
  split; [reflexivity|]. split.
  - destruct (t =? App)%string eqn:Ht.
    + apply String.eqb_eq in Ht. subst t. reflexivity.
    + apply String.eqb_neq in Ht. rewrite (Hgen t Ht). unfold line.
      destruct (p =? "")%string; simpl; rewrite ?append_assoc; reflexivity.
  - repeat split; apply Hgen; discriminate.
Qed.

(** ** The four existence checks *)

Section Scans.

Variable t : LogType.
Variable loop : list LogInfo -> bool.
Hypothesis loop_nil : loop [] = false.
Hypothesis loop_cons : forall x l,
  loop (x :: l) = if (lni_Type x =? t)%string then true else loop l.

Lemma scan_exists (l : list LogInfo) :
  loop l = true <-> exists m, In m l /\ lni_Type m = t.
Proof using loop_nil loop_cons.
  induction l as [|x l IH].
  - rewrite loop_nil. split; [discriminate | intros (m & [] & _)].
  - rewrite loop_cons. destruct (lni_Type x =? t)%string eqn:Hx.
    + apply String.eqb_eq in Hx. split; [|reflexivity].
      intros _. exists x. split; [now left | exact Hx].
    + apply String.eqb_neq in Hx. rewrite IH. split.
      * intros (m & Hm & Ht). exists m. split; [now right | exact Ht].
      * intros (m & [->|Hm] & Ht); [contradiction|]. now exists m.
Qed.

Lemma scan_app (l1 l2 : list LogInfo) :
  loop (l1 ++ l2) = loop l1 || loop l2.
Proof using loop_nil loop_cons.
  induction l1 as [|x l1 IH]; simpl.
  - now rewrite loop_nil.
  - rewrite !loop_cons, IH. now destruct (lni_Type x =? t)%string.
Qed.

End Scans.

(** C4. HasErrors is true exactly when some stored message has type
    Error, and likewise HasWarnings for Warn, HasInfos for Info and
    HasSucceses for Success.  Each is a function of the log that returns
    a boolean and nothing else: the methods have value receivers and only
    read the messages. *)
Theorem Has_iff_exists (r : Log) :
  (HasErrors r = true <-> exists m, In m (ln r) /\ lni_Type m = Error) /\
  (HasWarnings r = true <-> exists m, In m (ln r) /\ lni_Type m = Warn) /\
  (HasInfos r = true <-> exists m, In m (ln r) /\ lni_Type m = Info) /\
  (HasSucceses r = true <-> exists m, In m (ln r) /\ lni_Type m = Success).
Proof.
  unfold HasErrors, HasWarnings, HasInfos, HasSucceses.
  repeat split; try (apply scan_exists; reflexivity);
    apply scan_exists; reflexivity.
Qed.

(** ** Adding messages *)

Section AddingFacts.

Variable TrimSpace : string -> string.

(** The loop shared by the five categorised adds. *)
Lemma add_loop (typ : LogType) (msg : list string) (r : Log) :
  fold_left
    (fun r m => set_ln (addMessage TrimSpace (ln r) (Prefix r) m typ) r) msg r
  = {| Prefix := Prefix r;
       ln := ln r ++ List.map (stamped TrimSpace typ (Prefix r)) msg;
       osIsWin := osIsWin r |}.
Proof.
  revert r. induction msg as [|m msg IH]; intros r; simpl.
  - rewrite app_nil_r. now destruct r.
  - rewrite IH. unfold set_ln, addMessage, stamped; simpl.
    now rewrite <- app_assoc.
Qed.

Lemma exec_history (c : call) (r : Log) :
  (Prefix (exec TrimSpace c r), ln (exec TrimSpace c r))
  = history_step TrimSpace (Prefix r, ln r) c
  /\ osIsWin (exec TrimSpace c r) = osIsWin r.
Proof.
  destruct c; simpl;
    unfold AddInfo, AddWarning, AddError, AddSuccess, AddAppMsg;
    rewrite ?add_loop; simpl; split; reflexivity.
Qed.

Lemma run_history_gen (cs : list call) (r : Log) :
  (Prefix (run TrimSpace cs r), ln (run TrimSpace cs r))
  = fold_left (history_step TrimSpace) cs (Prefix r, ln r)
  /\ osIsWin (run TrimSpace cs r) = osIsWin r.
Proof.
  unfold run. revert r. induction cs as [|c cs IH]; intros r; simpl.
  - split; reflexivity.
  - destruct (exec_history c r) as [H1 H2].
    destruct (IH (exec TrimSpace c r)) as [H3 H4].
    rewrite H3, H4, H1, H2. split; reflexivity.
Qed.

Lemma run_history (cs : list call) (GOOS prefix : string) :
  ln (run TrimSpace cs (NewLog GOOS prefix)) = history TrimSpace cs prefix.
Proof.
  unfold history.
  destruct (run_history_gen cs (NewLog GOOS prefix)) as [H _].
  simpl in H. now rewrite <- H.
Qed.

Lemma run_osIsWin (cs : list call) (GOOS prefix : string) :
  osIsWin (run TrimSpace cs (NewLog GOOS prefix)) = (GOOS =? "windows")%string.
Proof. now destruct (run_history_gen cs (NewLog GOOS prefix)) as [_ ->]. Qed.

End AddingFacts.

(** C5. A categorised add called with the strings s1..sn leaves the
    stored messages in place and puts n new ones after them, in the order
    of the arguments: the i-th has the text of si trimmed, the prefix the
    log has at the call and the category of the method.  Nothing is
    filtered: the log grows by exactly n messages, also when a trimmed
    text is empty.  The default prefix and the newline flag stay. *)
Theorem Add_appends_stamped (TrimSpace : string -> string)
    (msg : list string) (r : Log) :
  let added typ := List.map (stamped TrimSpace typ (Prefix r)) msg in
  let after typ :=
    {| Prefix := Prefix r; ln := ln r ++ added typ; osIsWin := osIsWin r |} in
  (AddInfo TrimSpace msg r = after Info /\
   AddWarning TrimSpace msg r = after Warn /\
   AddError TrimSpace msg r = after Error /\
   AddSuccess TrimSpace msg r = after Success /\
   AddAppMsg TrimSpace msg r = after App) /\
  (forall typ, length (ln (after typ)) = length (ln r) + length msg) /\
  (forall typ i, ln (after typ) !! (length (ln r) + i)
                 = stamped TrimSpace typ (Prefix r) <$> msg !! i) /\
  (forall typ, take (length (ln r)) (ln (after typ)) = ln r).
Proof.
  intros added after. split; [|split; [|split]].
  - unfold AddInfo, AddWarning, AddError, AddSuccess, AddAppMsg.
    rewrite !add_loop. repeat split; reflexivity.
  - intros typ. subst after added. simpl.
    now rewrite length_app, length_map.
  - intros typ i. subst after added. simpl.
    rewrite lookup_app_r by lia.
    replace (length (ln r) + i - length (ln r)) with i by lia.
    apply list_lookup_fmap.
  - intros typ. subst after added. simpl.
    now rewrite take_app_length.
Qed.

(** An argument that is all white space is stored as an empty message. *)
Example add_blank :
  Notes (AddError strings.TrimSpace ["   "; ""; " x "] (NewLog "linux" "P"))
  = [ mkLogInfo Error "P" ""; mkLogInfo Error "P" ""; mkLogInfo Error "P" "x" ].
Proof. reflexivity. Qed.

(** C10. A categorised add stamps the value the Prefix field has when the
    method is called.  After the field is assigned a new value, the
    messages added next carry the new value, and the messages stored
    before are kept as they were, each with the prefix it was created
    with. *)
Theorem Add_reads_current_Prefix (TrimSpace : string -> string)
    (p' : string) (before next : list string) (r : Log) :
  (ln (AddInfo TrimSpace next (setPrefix p' r))
     = ln r ++ List.map (stamped TrimSpace Info p') next /\
   ln (AddWarning TrimSpace next (setPrefix p' r))
     = ln r ++ List.map (stamped TrimSpace Warn p') next /\
   ln (AddError TrimSpace next (setPrefix p' r))
     = ln r ++ List.map (stamped TrimSpace Error p') next /\
   ln (AddSuccess TrimSpace next (setPrefix p' r))
     = ln r ++ List.map (stamped TrimSpace Success p') next /\
   ln (AddAppMsg TrimSpace next (setPrefix p' r))
     = ln r ++ List.map (stamped TrimSpace App p') next) /\
  ln (AddError TrimSpace next (setPrefix p' (AddInfo TrimSpace before r)))
    = ln r ++ List.map (stamped TrimSpace Info (Prefix r)) before
           ++ List.map (stamped TrimSpace Error p') next.
Proof.
  unfold AddInfo, AddWarning, AddError, AddSuccess, AddAppMsg.
  rewrite !add_loop. simpl. rewrite <- app_assoc. repeat split; reflexivity.
Qed.

(** ** Counting *)

Lemma countType_snoc (t : LogType) (l : list LogInfo) (x : LogInfo) :
  countType t (l ++ [x])
  = countType t l + (if (lni_Type x =? t)%string then 1 else 0).
Proof.
  unfold countType. rewrite List.filter_app, length_app. simpl.
  now destruct (lni_Type x =? t)%string.
Qed.

Lemma countType_le (t : LogType) (l : list LogInfo) :
  countType t l <= length l.
Proof. unfold countType. apply List.filter_length_le. Qed.

Lemma count_all_snoc (l : list LogInfo) (x : LogInfo) :
  count_all (l ++ [x]) = count_step (count_all l) x.
Proof. unfold count_all. now rewrite fold_left_app. Qed.

(** A slice holds at most [MaxInt] elements, so no counter wraps around:
    after the loop each counter is the number of messages of its type. *)
Lemma count_all_exact (l : list LogInfo) :
  (Z.of_nat (length l) <= GoInt.MaxInt)%Z ->
  count_all l
  = {| nfo := Z.of_nat (countType Info l);
       wrn := Z.of_nat (countType Warn l);
       err := Z.of_nat (countType Error l);
       suc := Z.of_nat (countType Success l) |}.
Proof.
  induction l as [|x l IH] using rev_ind; intros Hlen.
  - reflexivity.
  - rewrite length_app in Hlen. simpl in Hlen.
    rewrite count_all_snoc, IH by lia.
    rewrite !countType_snoc.
    pose proof (countType_le Info l). pose proof (countType_le Warn l).
    pose proof (countType_le Error l). pose proof (countType_le Success l).
    unfold count_step; cbn [nfo wrn err suc].
    destruct (lni_Type x =? Info)%string eqn:HI.
    { apply String.eqb_eq in HI. rewrite HI. cbn.
      rewrite incr_small by lia. f_equal; lia. }
    destruct (lni_Type x =? Warn)%string eqn:HW.
    { apply String.eqb_eq in HW. rewrite HW. cbn.
      rewrite incr_small by lia. f_equal; lia. }
    destruct (lni_Type x =? Error)%string eqn:HE.
    { apply String.eqb_eq in HE. rewrite HE. cbn.
      rewrite incr_small by lia. f_equal; lia. }
    destruct (lni_Type x =? Success)%string eqn:HS.
    { apply String.eqb_eq in HS. cbn.
      rewrite incr_small by lia. f_equal; lia. }
    f_equal; lia.
Qed.

(** A message whose type is none of the four tallied ones leaves the
    counters as they are. *)
Lemma count_step_other (c : counters) (x : LogInfo) :
  lni_Type x <> Info -> lni_Type x <> Warn ->
  lni_Type x <> Error -> lni_Type x <> Success ->
  count_step c x = c.
Proof.
  intros HI HW HE HS. unfold count_step.
  apply String.eqb_neq in HI, HW, HE, HS. now rewrite HI, HW, HE, HS.
Qed.

Lemma count_all_filter_other (t : LogType) (l : list LogInfo) :
  t <> Info -> t <> Warn -> t <> Error -> t <> Success ->
  count_all (List.filter (fun m => negb (lni_Type m =? t)%string) l)
  = count_all l.
Proof.
  intros HI HW HE HS. unfold count_all.
  generalize {| nfo := 0; wrn := 0; err := 0; suc := 0 |}.
  induction l as [|x l IH]; intros c; simpl; [reflexivity|].
  destruct (lni_Type x =? t)%string eqn:Hx; simpl.
  - apply String.eqb_eq in Hx.
    rewrite (count_step_other c x) by (rewrite Hx; assumption). apply IH.
  - apply IH.
Qed.

Lemma scan_filter_other (t t' : LogType) (loop : list LogInfo -> bool)
    (l : list LogInfo) :
  loop [] = false ->
  (forall x l, loop (x :: l)
               = if (lni_Type x =? t)%string then true else loop l) ->
  t' <> t ->
  loop (List.filter (fun m => negb (lni_Type m =? t')%string) l) = loop l.
Proof.
  intros Hnil Hcons Hne. induction l as [|x l IH]; simpl; [reflexivity|].
  destruct (lni_Type x =? t')%string eqn:Hx; simpl.
  - apply String.eqb_eq in Hx. rewrite Hcons, IH.
    assert (Hf : (lni_Type x =? t)%string = false)
      by (apply String.eqb_neq; congruence).
    now rewrite Hf.
  - now rewrite !Hcons, IH.
Qed.

(** The result of the four comparisons, in terms of the final counters. *)
Lemma dominant_cases (i w e s : nat) :
  let c := {| nfo := Z.of_nat i; wrn := Z.of_nat w;
              err := Z.of_nat e; suc := Z.of_nat s |} in
  let res :=
    if (nfo c >? wrn c)%Z && (nfo c >? err c)%Z && (nfo c >? suc c)%Z then Info
    else if (wrn c >? nfo c)%Z && (wrn c >? err c)%Z && (wrn c >? suc c)%Z then Warn
    else if (err c >? nfo c)%Z && (err c >? wrn c)%Z && (err c >? suc c)%Z then Error
    else if (suc c >? nfo c)%Z && (suc c >? wrn c)%Z && (suc c >? err c)%Z then Success
    else App in
  (res = Info <-> w < i /\ e < i /\ s < i) /\
  (res = Warn <-> i < w /\ e < w /\ s < w) /\
  (res = Error <-> i < e /\ w < e /\ s < e) /\
  (res = Success <-> i < s /\ w < s /\ e < s) /\
  (res = App <-> ~ (w < i /\ e < i /\ s < i) /\ ~ (i < w /\ e < w /\ s < w) /\
                 ~ (i < e /\ w < e /\ s < e) /\ ~ (i < s /\ w < s /\ e < s)).
Proof.
  intros c res. subst res c. cbn [nfo wrn err suc].
  rewrite !Z.gtb_ltb.
  repeat match goal with
         | |- context [(?a <? ?b)%Z] => destruct (Z.ltb_spec a b)
         end;
    cbn [andb];
    (repeat split; try discriminate; try lia; try reflexivity;
     intros; exfalso; lia).
Qed.

(** C1. Prevailing returns Info, Warn, Error or Success exactly when the
    number of messages of that type is strictly greater than each of the
    three other numbers, and App in every other case: when nothing is
    stored and when a tie leaves no strict winner.  Messages of type App
    are not tallied: dropping them from the log leaves the result as it
    is.  The bound on the length holds of every slice. *)
Theorem Prevailing_strict_winner (r : Log) :
  (Z.of_nat (length (ln r)) <= GoInt.MaxInt)%Z ->
  (Prevailing r = Info <-> strictWinner (ln r) Info Warn Error Success) /\
  (Prevailing r = Warn <-> strictWinner (ln r) Warn Info Error Success) /\
  (Prevailing r = Error <-> strictWinner (ln r) Error Info Warn Success) /\
  (Prevailing r = Success <-> strictWinner (ln r) Success Info Warn Error) /\
  (Prevailing r = App <->
     ~ strictWinner (ln r) Info Warn Error Success /\
     ~ strictWinner (ln r) Warn Info Error Success /\
     ~ strictWinner (ln r) Error Info Warn Success /\
     ~ strictWinner (ln r) Success Info Warn Error) /\
  Prevailing
    (set_ln (List.filter (fun m => negb (lni_Type m =? App)%string) (ln r)) r)
  = Prevailing r.
Proof.
  intros Hlen. unfold Prevailing, getDominantNoteType, strictWinner.
  rewrite (count_all_exact (ln r) Hlen).
  pose proof (dominant_cases (countType Info (ln r)) (countType Warn (ln r))
                (countType Error (ln r)) (countType Success (ln r))) as H.
  cbv zeta in H. destruct H as (H1 & H2 & H3 & H4 & H5).
  repeat (split; [assumption|]).
  cbn [ln set_ln]. rewrite count_all_filter_other by discriminate.
  now rewrite (count_all_exact (ln r) Hlen).
Qed.

Lemma Prevailing_strict_winner_witness :
  let r := {| Prefix := "P";
              ln := [ mkLogInfo Info "P" "a"; mkLogInfo App "" "b";
                      mkLogInfo Info "P" "c"; mkLogInfo Warn "Q" "d" ];
              osIsWin := false |} in
  Prevailing r = Info /\ strictWinner (ln r) Info Warn Error Success.
Proof.
  intros r.
  assert (Hlen : (Z.of_nat (length (ln r)) <= GoInt.MaxInt)%Z)
    by (vm_compute; discriminate).
  split.
  - reflexivity.
  - apply (proj1 (Prevailing_strict_winner r Hlen)). reflexivity.
Defined.

(** The ties of the specification: three against three, one each, and the
    empty log. *)
Example Prevailing_ties :
  let i := mkLogInfo Info "" "" in
  let w := mkLogInfo Warn "" "" in
  Prevailing (mkLog "" [i; w; i; w; i; w] false) = App /\
  Prevailing (mkLog "" [i; i; w; w] false) = App /\
  Prevailing (mkLog "" [i; i; i; w] false) = Info /\
  Prevailing (mkLog "" [] false) = App.
Proof. repeat split; reflexivity. Qed.

(** ** The reserved type Fatal *)

Lemma count_all_ignores_Fatal (l : list LogInfo) (pms : list (string * string)) :
  count_all (l ++ List.map (fun pm => mkLogInfo Fatal (fst pm) (snd pm)) pms)
  = count_all l.
Proof.
  unfold count_all. rewrite fold_left_app.
  generalize (fold_left count_step l {| nfo := 0; wrn := 0; err := 0; suc := 0 |}).
  induction pms as [|pm pms IH]; intros c; simpl; [reflexivity|].
  rewrite count_step_other by discriminate. apply IH.
Qed.

Lemma getDominantNoteType_range (l : list LogInfo) :
  In (getDominantNoteType l) [Info; Warn; Error; Success; App].
Proof.
  unfold getDominantNoteType.
  repeat match goal with
         | |- context [if ?b then _ else _] => destruct b
         end; simpl; tauto.
Qed.

(** C9. Messages of type Fatal weigh nothing in the four tallies and are
    not seen by the four existence checks.  Prevailing never returns
    Fatal; the counters, the result of Prevailing and the four checks are
    the same with and without the Fatal messages of a log, wherever they
    stand, and in particular are not changed by raw-appending Fatal
    messages; a log holding Fatal messages only has Prevailing equal to
    App and the four checks false. *)
Theorem Fatal_is_invisible (r : Log) (pms : list (string * string)) :
  let fatals := List.map (fun pm => mkLogInfo Fatal (fst pm) (snd pm)) pms in
  let noFatal :=
    set_ln (List.filter (fun m => negb (lni_Type m =? Fatal)%string) (ln r)) r in
  Prevailing r <> Fatal /\
  (count_all (ln noFatal) = count_all (ln r) /\
   Prevailing noFatal = Prevailing r /\
   HasErrors noFatal = HasErrors r /\ HasWarnings noFatal = HasWarnings r /\
   HasInfos noFatal = HasInfos r /\ HasSucceses noFatal = HasSucceses r) /\
  (count_all (ln (Append fatals r)) = count_all (ln r) /\
   Prevailing (Append fatals r) = Prevailing r /\
   HasErrors (Append fatals r) = HasErrors r /\
   HasWarnings (Append fatals r) = HasWarnings r /\
   HasInfos (Append fatals r) = HasInfos r /\
   HasSucceses (Append fatals r) = HasSucceses r) /\
  (Prevailing (set_ln fatals r) = App /\
   HasErrors (set_ln fatals r) = false /\ HasWarnings (set_ln fatals r) = false /\
   HasInfos (set_ln fatals r) = false /\ HasSucceses (set_ln fatals r) = false).
Proof.
  intros fatals noFatal.
  assert (Hscan : forall t loop, loop [] = false ->
            (forall x l, loop (x :: l)
                         = if (lni_Type x =? t)%string then true else loop l) ->
            Fatal <> t -> loop fatals = false).
  { intros t loop Hnil Hcons Hne. subst fatals.
    induction pms as [|pm pms IH]; simpl; [exact Hnil|].
    rewrite Hcons, IH. cbn [lni_Type].
    assert (Hf : (Fatal =? t)%string = false) by now apply String.eqb_neq.
    now rewrite Hf. }
  split; [|split; [|split]].
  - intros HF. pose proof (getDominantNoteType_range (ln r)) as Hin.
    unfold Prevailing in HF. rewrite HF in Hin. simpl in Hin.
    repeat (destruct Hin as [Hin|Hin]; [discriminate Hin|]). exact Hin.
  - subst noFatal. unfold Prevailing, getDominantNoteType,
      HasErrors, HasWarnings, HasInfos, HasSucceses. cbn [ln set_ln].
    rewrite count_all_filter_other by discriminate.
    repeat split;
      (eapply scan_filter_other;
       [reflexivity | intros; reflexivity | discriminate]).
  - unfold Prevailing, getDominantNoteType,
      HasErrors, HasWarnings, HasInfos, HasSucceses, Append. cbn [ln set_ln].
    assert (Happ : forall t loop, loop [] = false ->
              (forall x l, loop (x :: l)
                           = if (lni_Type x =? t)%string then true else loop l) ->
              Fatal <> t -> loop (ln r ++ fatals) = loop (ln r)).
    { intros t loop Hnil Hcons Hne.
      rewrite (scan_app t loop Hnil Hcons), (Hscan t loop Hnil Hcons Hne).
      apply orb_false_r. }
    subst fatals. rewrite count_all_ignores_Fatal.
    repeat split;
      (eapply Happ; [reflexivity | intros; reflexivity | discriminate]).
  - unfold Prevailing, getDominantNoteType,
      HasErrors, HasWarnings, HasInfos, HasSucceses. cbn [ln set_ln].
    pose proof (count_all_ignores_Fatal [] pms) as Hc. simpl in Hc.
    fold fatals in Hc. rewrite Hc.
    repeat split;
      (eapply Hscan; [reflexivity | intros; reflexivity | discriminate]).
Qed.

(** ** Rendering a log *)

Lemma Write_loop (f : LogInfo -> string) (l : list LogInfo) (sb : string) :
  fold_left (fun sb v => strings.Write sb (f v)) l sb
  = (sb ++ fold_right String.append "" (List.map f l))%string.
Proof.
  revert sb. induction l as [|x l IH]; intros sb; simpl.
  - now rewrite append_empty_r.
  - rewrite IH. unfold strings.Write. apply append_assoc.
Qed.

Lemma Log_ToString_concat (r : Log) :
  Log_ToString r
  = fold_right String.append ""
      (List.map
         (fun v => (LogInfo_ToString v ++ if osIsWin r then crnl else nl)%string)
         (ln r)).
Proof.
  unfold Log_ToString, strings.String_, strings.Builder_zero.
  now rewrite Write_loop.
Qed.

Lemma lines_end (f : LogInfo -> string) (lf : string) (x : LogInfo)
    (l : list LogInfo) :
  endsWith lf
    (fold_right String.append "" (List.map (fun v => (f v ++ lf)%string) (x :: l))).
Proof.
  revert x. induction l as [|y l IH]; intros x.
  - exists (f x). simpl. now rewrite append_empty_r.
  - destruct (IH y) as [front Hfront].
    exists ((f x ++ lf) ++ front)%string.
    change (List.map ?g (x :: ?t)) with (g x :: List.map g t).
    cbn [fold_right]. rewrite Hfront. now rewrite !append_assoc.
Qed.

(** C2. For a log made by NewLog and driven by any calls, ToString is the
    concatenation, in the order of storage, of the rendered line of each
    message followed by the newline chosen at construction: carriage
    return and line feed (two characters) when GOOS was windows, line
    feed alone (one character) otherwise.  The text of an empty log is
    empty and the text of any other log ends with that newline. *)
Theorem Log_ToString_lines (TrimSpace : string -> string)
    (GOOS prefix : string) (cs : list call) :
  let r := run TrimSpace cs (NewLog GOOS prefix) in
  let lf := if (GOOS =? "windows")%string
            then String "013" (String "010" "") else String "010" "" in
  Log_ToString r
  = fold_right String.append ""
      (List.map (fun v => (LogInfo_ToString v ++ lf)%string) (ln r)) /\
  String.length lf = (if (GOOS =? "windows")%string then 2 else 1) /\
  match ln r with
  | [] => Log_ToString r = ""
  | _ :: _ => endsWith lf (Log_ToString r)
  end.
Proof.
  intros r lf.
  assert (HT : Log_ToString r
               = fold_right String.append ""
                   (List.map (fun v => (LogInfo_ToString v ++ lf)%string) (ln r))).
  { rewrite Log_ToString_concat. subst r lf. rewrite run_osIsWin.
    reflexivity. }
  split; [exact HT|]. split.
  - subst lf. now destruct (GOOS =? "windows")%string.
  - rewrite HT. destruct (ln r) as [|x l]; [reflexivity|]. apply lines_end.
Qed.

Example ToString_windows :
  Log_ToString
    (run strings.TrimSpace
       [CallAddWarning [" low disk "]; CallAddAppMsg ["bye"]]
       (NewLog "windows" ""))
  = ("WRN: low disk" ++ crnl ++ "bye" ++ crnl)%string.
Proof. reflexivity. Qed.

(** ** Clear *)

(** C8. Clear leaves no message and keeps the default prefix and the
    newline flag.  Right after it the four existence checks are false,
    Prevailing is App and ToString is the empty string; a categorised add
    made next stamps the prefix the log had before Clear and stores
    exactly its own messages.  A cleared log that came from NewLog is the
    log NewLog makes on the same platform with the prefix now in force. *)
Theorem Clear_resets_messages_only (TrimSpace : string -> string) (r : Log)
    (msg : list string) (GOOS prefix : string) (cs : list call) :
  Clear r = {| Prefix := Prefix r; ln := []; osIsWin := osIsWin r |} /\
  (HasErrors (Clear r) = false /\ HasWarnings (Clear r) = false /\
   HasInfos (Clear r) = false /\ HasSucceses (Clear r) = false) /\
  Prevailing (Clear r) = App /\
  Log_ToString (Clear r) = "" /\
  (ln (AddInfo TrimSpace msg (Clear r))
     = List.map (stamped TrimSpace Info (Prefix r)) msg /\
   ln (AddWarning TrimSpace msg (Clear r))
     = List.map (stamped TrimSpace Warn (Prefix r)) msg /\
   ln (AddError TrimSpace msg (Clear r))
     = List.map (stamped TrimSpace Error (Prefix r)) msg /\
   ln (AddSuccess TrimSpace msg (Clear r))
     = List.map (stamped TrimSpace Success (Prefix r)) msg /\
   ln (AddAppMsg TrimSpace msg (Clear r))
     = List.map (stamped TrimSpace App (Prefix r)) msg) /\
  Clear (run TrimSpace cs (NewLog GOOS prefix))
  = NewLog GOOS (Prefix (run TrimSpace cs (NewLog GOOS prefix))).
Proof.
  repeat split; try reflexivity.
  1-5: unfold AddInfo, AddWarning, AddError, AddSuccess, AddAppMsg;
       rewrite add_loop; reflexivity.
  unfold Clear, set_ln. now rewrite run_osIsWin.
Qed.

(** ** Slices over backing arrays *)

Lemma cells_lookup (h : Mem.store) (p : nat) (arr : list LogInfo) :
  h !! p = Some arr -> Mem.cells h p = arr.
Proof. intros H. unfold Mem.cells. now rewrite H. Qed.

Lemma empty_spec (h : Mem.store) :
  Mem.elems (snd (Mem.empty h)) (fst (Mem.empty h)) = []
  /\ Mem.wf (snd (Mem.empty h)) (fst (Mem.empty h)).
Proof.
  unfold Mem.empty, Mem.alloc, Mem.elems, Mem.wf; simpl. split.
  - reflexivity.
  - exists []. repeat split; [|lia].
    rewrite lookup_app_r by lia. now rewrite Nat.sub_diag.
Qed.

(** A write through a header reaches every header that shares its array
    and covers the index. *)
Lemma setIndex_elems (h h' : Mem.store) (s : Mem.slice) (i : nat) (v : LogInfo) :
  Mem.wf h s ->
  Mem.setIndex s i v h = Some h' ->
  i < Mem.len s /\ Mem.elems h' s = <[i := v]> (Mem.elems h s).
Proof.
  intros (arr & Harr & Hlen & Hcap). unfold Mem.setIndex.
  destruct (i <? Mem.len s)%nat eqn:Hi; [|discriminate].
  apply Nat.ltb_lt in Hi. intros [= <-]. split; [exact Hi|].
  unfold Mem.elems. rewrite (cells_lookup _ _ _ Harr).
  assert (Hp : Mem.ptr s < length h) by (eapply lookup_lt_Some; eassumption).
  rewrite (cells_lookup _ _ (<[i := v]> arr))
    by now apply list_lookup_insert_eq.
  now apply take_insert_lt.
Qed.

Lemma setIndex_None (h : Mem.store) (s : Mem.slice) (i : nat) (v : LogInfo) :
  Mem.wf h s ->
  Mem.setIndex s i v h = None -> length (Mem.elems h s) <= i.
Proof.
  intros (arr & Harr & Hlen & Hcap). unfold Mem.setIndex.
  destruct (i <? Mem.len s)%nat eqn:Hi; [discriminate|].
  apply Nat.ltb_ge in Hi. intros _.
  unfold Mem.elems. rewrite length_take. lia.
Qed.

Section StoreFacts.

Variable TrimSpace : string -> string.
Variable growcap : nat -> nat -> nat.

(** What the runtime guarantees of a reallocation: room for the
    elements. *)
Hypothesis growcap_fits : forall old n, n <= growcap old n.

Lemma append_spec (s : Mem.slice) (vs : list LogInfo) (h : Mem.store) :
  Mem.wf h s ->
  Mem.elems (snd (Mem.append growcap s vs h)) (fst (Mem.append growcap s vs h))
  = Mem.elems h s ++ vs
  /\ Mem.wf (snd (Mem.append growcap s vs h)) (fst (Mem.append growcap s vs h)).
Proof using growcap_fits.
  intros (arr & Harr & Hlen & Hcap). unfold Mem.append.
  assert (Hp : Mem.ptr s < length h) by (eapply lookup_lt_Some; eassumption).
  destruct (Mem.len s + length vs <=? Mem.cap s)%nat eqn:Hfit.
  - apply Nat.leb_le in Hfit. cbn [fst snd].
    rewrite (cells_lookup _ _ _ Harr).
    set (arr' := take (Mem.len s) arr ++ vs
                 ++ drop (Mem.len s + length vs) arr).
    assert (Harr' : <[Mem.ptr s := arr']> h !! Mem.ptr s = Some arr')
      by now apply list_lookup_insert_eq.
    split.
    + unfold Mem.elems; cbn [Mem.ptr Mem.len].
      rewrite (cells_lookup _ _ _ Harr'), (cells_lookup _ _ _ Harr).
      subst arr'. rewrite app_assoc. apply take_app_length'.
      rewrite length_app, length_take. lia.
    + exists arr'. cbn [Mem.ptr Mem.len Mem.cap].
      split; [exact Harr'|]. split; [|exact Hfit].
      subst arr'. rewrite !length_app, length_take, length_drop. lia.
  - apply Nat.leb_gt in Hfit. unfold Mem.alloc. cbn [fst snd].
    set (n := Mem.len s + length vs).
    set (c := growcap (Mem.cap s) n).
    set (arr' := Mem.elems h s ++ vs ++ replicate (c - n) Mem.zero).
    assert (Harr' : (h ++ [arr']) !! length h = Some arr').
    { rewrite lookup_app_r by lia. now rewrite Nat.sub_diag. }
    assert (Hel : length (Mem.elems h s) = Mem.len s).
    { unfold Mem.elems. rewrite (cells_lookup _ _ _ Harr), length_take. lia. }
    split.
    + unfold Mem.elems at 1; cbn [Mem.ptr Mem.len].
      rewrite (cells_lookup _ _ _ Harr'). subst arr'.
      rewrite app_assoc. apply take_app_length'.
      rewrite length_app. lia.
    + exists arr'. cbn [Mem.ptr Mem.len Mem.cap].
      pose proof (growcap_fits (Mem.cap s) n) as Hc. fold c in Hc.
      split; [exact Harr'|]. split; [|exact Hc].
      subst arr'. rewrite !length_app, length_replicate. lia.
Qed.

Lemma addAll_refines (typ : LogType) (msg : list string) (r : Mem.Log)
    (h : Mem.store) :
  Mem.wf h (Mem.ln r) ->
  abs (snd (Mem.addAll TrimSpace growcap typ msg r h))
      (fst (Mem.addAll TrimSpace growcap typ msg r h))
  = fold_left
      (fun r m => set_ln (addMessage TrimSpace (ln r) (Prefix r) m typ) r)
      msg (abs h r)
  /\ Mem.wf (snd (Mem.addAll TrimSpace growcap typ msg r h))
            (Mem.ln (fst (Mem.addAll TrimSpace growcap typ msg r h))).
Proof using growcap_fits.
  unfold Mem.addAll. revert r h.
  induction msg as [|m msg IH]; intros r h Hwf; cbn [fold_left fst snd].
  - split; [reflexivity | exact Hwf].
  - set (x := {| lni_Type := typ; lni_Prefix := Mem.Prefix r;
                 lni_Message := TrimSpace m |}).
    change (Mem.addMessage TrimSpace growcap (Mem.ln r) (Mem.Prefix r) m typ h)
      with (Mem.append growcap (Mem.ln r) [x] h).
    destruct (append_spec (Mem.ln r) [x] h Hwf) as [Hel Hwf'].
    destruct (Mem.append growcap (Mem.ln r) [x] h) as [s1 h1] eqn:Happ.
    cbn [fst snd] in Hel, Hwf'.
    destruct (IH (Mem.set_ln s1 r) h1 Hwf') as [IH1 IH2].
    split; [|exact IH2]. rewrite IH1. f_equal.
    unfold abs, set_ln, addMessage, Mem.set_ln; cbn. now rewrite Hel.
Qed.

Lemma Append_refines (batch : list LogInfo) (r : Mem.Log) (h : Mem.store) :
  Mem.wf h (Mem.ln r) ->
  abs (snd (Mem.Append growcap batch r h)) (fst (Mem.Append growcap batch r h))
  = Append batch (abs h r)
  /\ Mem.wf (snd (Mem.Append growcap batch r h))
            (Mem.ln (fst (Mem.Append growcap batch r h))).
Proof using growcap_fits.
  intros Hwf. unfold Mem.Append.
  destruct (append_spec (Mem.ln r) batch h Hwf) as [Hel Hwf'].
  destruct (Mem.append growcap (Mem.ln r) batch h) as [s1 h1].
  cbn [fst snd] in *. split; [|exact Hwf'].
  unfold abs, Append, set_ln, Mem.set_ln; cbn. now rewrite Hel.
Qed.

Lemma exec_refines (c : call) (r : Mem.Log) (h : Mem.store) :
  Mem.wf h (Mem.ln r) ->
  abs (snd (Mem.exec TrimSpace growcap c r h))
      (fst (Mem.exec TrimSpace growcap c r h))
  = exec TrimSpace c (abs h r)
  /\ Mem.wf (snd (Mem.exec TrimSpace growcap c r h))
            (Mem.ln (fst (Mem.exec TrimSpace growcap c r h))).
Proof using growcap_fits.
  intros Hwf. destruct c; cbn [Mem.exec exec].
  1-5: apply addAll_refines; exact Hwf.
  - now apply Append_refines.
  - unfold Mem.Clear. destruct (empty_spec h) as [Hel Hwf'].
    destruct (Mem.empty h) as [s1 h1]. cbn [fst snd] in *.
    split; [|exact Hwf'].
    unfold abs, Clear, set_ln, Mem.set_ln; cbn. now rewrite Hel.
  - split; [reflexivity | exact Hwf].
Qed.

Lemma run_refines (cs : list call) (r : Mem.Log) (h : Mem.store) :
  Mem.wf h (Mem.ln r) ->
  abs (snd (Mem.run TrimSpace growcap cs r h))
      (fst (Mem.run TrimSpace growcap cs r h))
  = run TrimSpace cs (abs h r)
  /\ Mem.wf (snd (Mem.run TrimSpace growcap cs r h))
            (Mem.ln (fst (Mem.run TrimSpace growcap cs r h))).
Proof using growcap_fits.
  unfold Mem.run, run. revert r h.
  induction cs as [|c cs IH]; intros r h Hwf; cbn [fold_left fst snd].
  - split; [reflexivity | exact Hwf].
  - destruct (exec_refines c r h Hwf) as [H1 H2].
    destruct (Mem.exec TrimSpace growcap c r h) as [r1 h1].
    cbn [fst snd] in *. rewrite <- H1. now apply IH.
Qed.

End StoreFacts.

Lemma NewLog_refines (GOOS prefix : string) (h : Mem.store) :
  abs (snd (Mem.NewLog GOOS prefix h)) (fst (Mem.NewLog GOOS prefix h))
  = NewLog GOOS prefix
  /\ Mem.wf (snd (Mem.NewLog GOOS prefix h))
            (Mem.ln (fst (Mem.NewLog GOOS prefix h))).
Proof.
  unfold Mem.NewLog. destruct (empty_spec h) as [Hel Hwf].
  destruct (Mem.empty h) as [s1 h1]. cbn [fst snd] in *.
  split; [|exact Hwf]. unfold abs, NewLog; cbn. now rewrite Hel.
Qed.

(** ** Raw append *)

(** C6. Append puts the supplied messages, unchanged and in the order of
    the batch, after the messages already stored, whether the built-in
    append writes into the spare capacity of the log's array or moves to
    a fresh one; the log's default prefix is not applied and nothing is
    trimmed.  Appending the messages of one log to another keeps every
    message of both. *)
Theorem Append_keeps_batch (growcap : nat -> nat -> nat)
    (batch : list LogInfo) (r : Mem.Log) (h : Mem.store) :
  (forall old n, n <= growcap old n) ->
  Mem.wf h (Mem.ln r) ->
  let st := Mem.Append growcap batch r h in
  Mem.elems (snd st) (Mem.ln (fst st)) = Mem.elems h (Mem.ln r) ++ batch /\
  (forall i, Mem.elems (snd st) (Mem.ln (fst st))
               !! (length (Mem.elems h (Mem.ln r)) + i) = batch !! i) /\
  Mem.Prefix (fst st) = Mem.Prefix r /\
  Mem.osIsWin (fst st) = Mem.osIsWin r /\
  Mem.wf (snd st) (Mem.ln (fst st)) /\
  abs (snd st) (fst st) = Append batch (abs h r) /\
  (forall a b : Log, Notes (Append (Notes b) a) = Notes a ++ Notes b).
Proof.
  intros Hg Hwf st.
  destruct (Append_refines growcap Hg batch r h Hwf) as [Habs Hwf'].
  fold st in Habs, Hwf'.
  assert (Hel : Mem.elems (snd st) (Mem.ln (fst st))
                = Mem.elems h (Mem.ln r) ++ batch).
  { change (ln (abs (snd st) (fst st)) = ln (Append batch (abs h r))).
    now rewrite Habs. }
  split; [exact Hel|]. split.
  { intros i. rewrite Hel, lookup_app_r by lia. f_equal. lia. }
  split; [now rewrite (f_equal Prefix Habs : Mem.Prefix (fst st) = _)|].
  split; [now rewrite (f_equal osIsWin Habs : Mem.osIsWin (fst st) = _)|].
  split; [exact Hwf'|]. split; [exact Habs|]. reflexivity.
Qed.

Lemma Append_keeps_batch_witness :
  let g := fun _ n : nat => n in
  let st0 := Mem.NewLog "linux" "D" [] in
  let batch := [ mkLogInfo Warn "other" "  raw  "; mkLogInfo Fatal "" "" ] in
  let st := Mem.Append g batch (fst st0) (snd st0) in
  Mem.elems (snd st) (Mem.ln (fst st)) = batch.
Proof.
  intros g st0 batch st.
  assert (Hg : forall old n : nat, n <= g old n) by (intros; unfold g; lia).
  assert (Hwf : Mem.wf (snd st0) (Mem.ln (fst st0))).
  { exists []. vm_compute. repeat split; lia. }
  exact (proj1 (Append_keeps_batch g batch (fst st0) (snd st0) Hg Hwf)).
Defined.

(** Both branches of the built-in append: the second message goes into a
    fresh array, the third into the spare cell of that array. *)
Example append_in_place :
  let g := fun old n : nat => Nat.max n (2 * old + 2) in
  let st0 := Mem.NewLog "linux" "" [] in
  let st1 := Mem.AddInfo strings.TrimSpace g ["a"] (fst st0) (snd st0) in
  let st2 := Mem.AddInfo strings.TrimSpace g ["b"] (fst st1) (snd st1) in
  Mem.ln (fst st0) = Mem.mkSlice 0 0 0 /\
  Mem.ln (fst st1) = Mem.mkSlice 1 1 2 /\
  Mem.ln (fst st2) = Mem.mkSlice 1 2 2 /\
  Mem.elems (snd st2) (Mem.ln (fst st2))
  = [ mkLogInfo Info "" "a"; mkLogInfo Info "" "b" ].
Proof. repeat split; reflexivity. Qed.

(** ** Notes *)

(** C7, as the specification has it: a caller cannot change the log
    through the value Notes returns.  It fails: assigning to the first
    element of the returned slice replaces the first stored message, and
    a log that held no error now reports one. *)
Lemma Notes_is_not_read_only :
  let g := fun _ n : nat => n in
  let st0 := Mem.NewLog "linux" "P" [] in
  let st := Mem.AddInfo strings.TrimSpace g ["a"] (fst st0) (snd st0) in
  let r := fst st in
  let h := snd st in
  exists h',
    Mem.setIndex (Mem.Notes r) 0 (mkLogInfo Error "" "x") h = Some h' /\
    Mem.elems h (Mem.ln r) = [ mkLogInfo Info "P" "a" ] /\
    Mem.elems h' (Mem.ln r) = [ mkLogInfo Error "" "x" ] /\
    Mem.elems h' (Mem.ln r) <> Mem.elems h (Mem.ln r) /\
    HasErrors (abs h r) = false /\
    HasErrors (abs h' r) = true.
Proof.
  intros g st0 st r h. eexists. split; [reflexivity|].
  repeat split; try reflexivity. discriminate.
Qed.

(** C7, amended. For a log made by NewLog and driven by any mix of
    categorised adds, raw appends, Clear and prefix assignments, Notes
    returns all stored messages in the order in which they were
    appended.  What it returns is the log's own slice header, not a copy:
    an assignment through it at an index below the length replaces that
    stored message in the log and leaves the others and the length as
    they are; at any other index the assignment panics. *)
Theorem Notes_in_order_shared (TrimSpace : string -> string)
    (growcap : nat -> nat -> nat) (GOOS prefix : string) (cs : list call)
    (h0 : Mem.store) :
  (forall old n, n <= growcap old n) ->
  let st0 := Mem.NewLog GOOS prefix h0 in
  let st := Mem.run TrimSpace growcap cs (fst st0) (snd st0) in
  let r := fst st in
  let h := snd st in
  Mem.elems h (Mem.Notes r) = history TrimSpace cs prefix /\
  Notes (run TrimSpace cs (NewLog GOOS prefix)) = history TrimSpace cs prefix /\
  Mem.Notes r = Mem.ln r /\
  (forall i v,
     match Mem.setIndex (Mem.Notes r) i v h with
     | Some h' =>
         i < length (Mem.elems h (Mem.ln r)) /\
         Mem.elems h' (Mem.ln r) = <[i := v]> (Mem.elems h (Mem.ln r)) /\
         Mem.elems h' (Mem.ln r) !! i = Some v
     | None => length (Mem.elems h (Mem.ln r)) <= i
     end).
Proof.
  intros Hg st0 st r h.
  destruct (NewLog_refines GOOS prefix h0) as [Habs0 Hwf0]. fold st0 in Habs0, Hwf0.
  destruct (run_refines TrimSpace growcap Hg cs (fst st0) (snd st0) Hwf0)
    as [Habs Hwf].
  fold st in Habs, Hwf. fold r h in Habs, Hwf. rewrite Habs0 in Habs.
  assert (Hlen : length (Mem.elems h (Mem.ln r)) = Mem.len (Mem.ln r)).
  { destruct Hwf as (arr & Harr & Ha & Hc). unfold Mem.elems.
    rewrite (cells_lookup _ _ _ Harr), length_take. lia. }
  split; [|split; [|split]].
  - change (ln (abs h r) = history TrimSpace cs prefix).
    rewrite Habs. apply run_history.
  - apply run_history.
  - reflexivity.
  - intros i v. unfold Mem.Notes.
    destruct (Mem.setIndex (Mem.ln r) i v h) as [h'|] eqn:Hset.
    + destruct (setIndex_elems h h' (Mem.ln r) i v Hwf Hset) as [Hi Hel].
      split; [lia|]. split; [exact Hel|].
      rewrite Hel. apply list_lookup_insert_eq. lia.
    + now apply (setIndex_None h (Mem.ln r) i v).
Qed.

Lemma Notes_in_order_shared_witness :
  let g := fun _ n : nat => n in
  let cs := [ CallAddInfo [" one "]; CallAppend [mkLogInfo Fatal "Q" "two"];
              CallSetPrefix "R"; CallAddError ["three"] ] in
  let st0 := Mem.NewLog "linux" "P" [] in
  let st := Mem.run strings.TrimSpace g cs (fst st0) (snd st0) in
  Mem.elems (snd st) (Mem.Notes (fst st))
  = [ mkLogInfo Info "P" "one"; mkLogInfo Fatal "Q" "two";
      mkLogInfo Error "R" "three" ].
Proof.
  intros g cs st0 st.
  assert (Hg : forall old n : nat, n <= g old n) by (intros; unfold g; lia).
  exact (proj1 (Notes_in_order_shared strings.TrimSpace g "linux" "P" cs [] Hg)).
Defined.


(** * Further properties of the package *)

(** ** How the adds and the checks compose *)

(** X1. One categorised add called with several strings does what the
    same method called on the strings in turn does, and a call with no
    string leaves the log as it is. *)
Theorem Add_splits (TrimSpace : string -> string) (m1 m2 : list string)
    (r : Log) :
  (AddInfo TrimSpace (m1 ++ m2) r = AddInfo TrimSpace m2 (AddInfo TrimSpace m1 r) /\
   AddWarning TrimSpace (m1 ++ m2) r
     = AddWarning TrimSpace m2 (AddWarning TrimSpace m1 r) /\
   AddError TrimSpace (m1 ++ m2) r = AddError TrimSpace m2 (AddError TrimSpace m1 r) /\
   AddSuccess TrimSpace (m1 ++ m2) r
     = AddSuccess TrimSpace m2 (AddSuccess TrimSpace m1 r) /\
   AddAppMsg TrimSpace (m1 ++ m2) r
     = AddAppMsg TrimSpace m2 (AddAppMsg TrimSpace m1 r)) /\
  (AddInfo TrimSpace [] r = r /\ AddWarning TrimSpace [] r = r /\
   AddError TrimSpace [] r = r /\ AddSuccess TrimSpace [] r = r /\
   AddAppMsg TrimSpace [] r = r).
Proof.
  unfold AddInfo, AddWarning, AddError, AddSuccess, AddAppMsg.
  rewrite !fold_left_app. repeat split; reflexivity.
Qed.

Lemma scan_stamped (TrimSpace : string -> string) (t typ : LogType)
    (loop : list LogInfo -> bool) (p : string) (msg : list string)
    (l : list LogInfo) :
  loop [] = false ->
  (forall x l, loop (x :: l)
               = if (lni_Type x =? t)%string then true else loop l) ->
  loop (l ++ List.map (stamped TrimSpace typ p) msg)
  = loop l || ((typ =? t)%string && (0 <? length msg)%nat).
Proof.
  intros Hnil Hcons. rewrite (scan_app t loop Hnil Hcons). f_equal.
  destruct msg as [|m msg]; simpl.
  - rewrite Hnil. now rewrite andb_false_r.
  - rewrite Hcons. cbn [stamped lni_Type].
    destruct (typ =? t)%string eqn:Ht; [reflexivity|]. simpl.
    induction msg as [|m' msg IH]; simpl; [exact Hnil|].
    rewrite Hcons. cbn [stamped lni_Type]. now rewrite Ht.
Qed.

(** X2. After a categorised add, the check of the same category is true
    when it was true before or at least one string was passed, and the
    checks of the three other categories are what they were; AddAppMsg
    leaves the four checks as they were. *)
Theorem Has_after_add (TrimSpace : string -> string) (msg : list string)
    (r : Log) :
  let some := (0 <? length msg)%nat in
  (HasInfos (AddInfo TrimSpace msg r) = HasInfos r || some /\
   HasWarnings (AddWarning TrimSpace msg r) = HasWarnings r || some /\
   HasErrors (AddError TrimSpace msg r) = HasErrors r || some /\
   HasSucceses (AddSuccess TrimSpace msg r) = HasSucceses r || some) /\
  (HasWarnings (AddInfo TrimSpace msg r) = HasWarnings r /\
   HasErrors (AddInfo TrimSpace msg r) = HasErrors r /\
   HasSucceses (AddInfo TrimSpace msg r) = HasSucceses r) /\
  (HasInfos (AddWarning TrimSpace msg r) = HasInfos r /\
   HasErrors (AddWarning TrimSpace msg r) = HasErrors r /\
   HasSucceses (AddWarning TrimSpace msg r) = HasSucceses r) /\
  (HasInfos (AddError TrimSpace msg r) = HasInfos r /\
   HasWarnings (AddError TrimSpace msg r) = HasWarnings r /\
   HasSucceses (AddError TrimSpace msg r) = HasSucceses r) /\
  (HasInfos (AddSuccess TrimSpace msg r) = HasInfos r /\
   HasWarnings (AddSuccess TrimSpace msg r) = HasWarnings r /\
   HasErrors (AddSuccess TrimSpace msg r) = HasErrors r) /\
  (HasInfos (AddAppMsg TrimSpace msg r) = HasInfos r /\
   HasWarnings (AddAppMsg TrimSpace msg r) = HasWarnings r /\
   HasErrors (AddAppMsg TrimSpace msg r) = HasErrors r /\
   HasSucceses (AddAppMsg TrimSpace msg r) = HasSucceses r).
Proof.
  intros some.
  unfold AddInfo, AddWarning, AddError, AddSuccess, AddAppMsg.
  rewrite !add_loop.
  unfold HasErrors, HasWarnings, HasInfos, HasSucceses. cbn [ln].
  repeat split.
  all: match goal with
       | |- ?loop (_ ++ List.map (stamped _ ?typ _) _) = _ =>
           erewrite (scan_stamped TrimSpace _ typ loop);
           [ | reflexivity | intros; reflexivity ]
       end.
  all: cbn [String.eqb Ascii.eqb Bool.eqb andb]; rewrite ?orb_false_r;
       reflexivity.
Qed.

(** X3. After a raw append each check is true when it was true before or
    holds of the batch. *)
Theorem Has_after_Append (batch : list LogInfo) (r : Log) :
  HasErrors (Append batch r) = HasErrors r || HasErrors (set_ln batch r) /\
  HasWarnings (Append batch r) = HasWarnings r || HasWarnings (set_ln batch r) /\
  HasInfos (Append batch r) = HasInfos r || HasInfos (set_ln batch r) /\
  HasSucceses (Append batch r)
    = HasSucceses r || HasSucceses (set_ln batch r).
Proof.
  unfold HasErrors, HasWarnings, HasInfos, HasSucceses, Append. cbn [ln set_ln].
  repeat split; eapply scan_app; (reflexivity || (intros; reflexivity)).
Qed.

(** ** What only Clear can undo *)

Lemma exec_keeps_prefix (TrimSpace : string -> string) (c : call) (r : Log) :
  keepsMessages c = true ->
  exists added, ln (exec TrimSpace c r) = ln r ++ added.
Proof.
  intros Hc. destruct (exec_history TrimSpace c r) as [H _].
  apply (f_equal snd) in H. cbn [snd] in H. rewrite H.
  destruct c; cbn [history_step snd]; try discriminate Hc; eauto.
  exists []. now rewrite app_nil_r.
Qed.

Lemma run_keeps_prefix (TrimSpace : string -> string) (cs : list call)
    (r : Log) :
  forallb keepsMessages cs = true ->
  exists added, ln (run TrimSpace cs r) = ln r ++ added.
Proof.
  unfold run. revert r. induction cs as [|c cs IH]; intros r Hcs; simpl.
  - exists []. now rewrite app_nil_r.
  - simpl in Hcs. apply andb_true_iff in Hcs as [Hc Hcs].
    destruct (exec_keeps_prefix TrimSpace c r Hc) as [a1 H1].
    destruct (IH (exec TrimSpace c r) Hcs) as [a2 H2].
    exists (a1 ++ a2). now rewrite H2, H1, <- app_assoc.
Qed.

(** X4. The log is append-only between two Clear: after any calls other
    than Clear the messages stored before are still there, unchanged and
    in their places, at the front of the sequence. *)
Theorem stored_messages_stay (TrimSpace : string -> string)
    (cs : list call) (r : Log) :
  forallb keepsMessages cs = true ->
  take (length (ln r)) (ln (run TrimSpace cs r)) = ln r /\
  length (ln r) <= length (ln (run TrimSpace cs r)) /\
  (forall i x, ln r !! i = Some x -> ln (run TrimSpace cs r) !! i = Some x).
Proof.
  intros Hcs. destruct (run_keeps_prefix TrimSpace cs r Hcs) as [added ->].
  split; [apply take_app_length|]. split.
  - rewrite length_app. lia.
  - intros i x Hx. now apply lookup_app_l_Some.
Qed.

Lemma stored_messages_stay_witness :
  let r := AddInfo strings.TrimSpace ["a"] (NewLog "linux" "P") in
  let cs := [ CallAddError [" b "]; CallSetPrefix "Q";
              CallAppend [mkLogInfo Fatal "" "c"] ] in
  take 1 (ln (run strings.TrimSpace cs r)) = [ mkLogInfo Info "P" "a" ].
Proof.
  intros r cs.
  exact (proj1 (stored_messages_stay strings.TrimSpace cs r eq_refl)).
Defined.

(** X5. A check that is true stays true under every call but Clear. *)
Theorem Has_stays_true (TrimSpace : string -> string) (cs : list call)
    (r : Log) :
  forallb keepsMessages cs = true ->
  (HasErrors r = true -> HasErrors (run TrimSpace cs r) = true) /\
  (HasWarnings r = true -> HasWarnings (run TrimSpace cs r) = true) /\
  (HasInfos r = true -> HasInfos (run TrimSpace cs r) = true) /\
  (HasSucceses r = true -> HasSucceses (run TrimSpace cs r) = true).
Proof.
  intros Hcs. destruct (run_keeps_prefix TrimSpace cs r Hcs) as [added Hrun].
  unfold HasErrors, HasWarnings, HasInfos, HasSucceses. rewrite Hrun.
  repeat split; intros H;
    (erewrite scan_app; [ | reflexivity | intros; reflexivity ]);
    now rewrite H.
Qed.

Lemma Has_stays_true_witness :
  let r := AddError strings.TrimSpace ["boom"] (NewLog "linux" "") in
  let cs := [ CallAddInfo ["x"; "y"]; CallAppend []; CallAddSuccess ["z"] ] in
  HasErrors (run strings.TrimSpace cs r) = true.
Proof.
  intros r cs.
  exact (proj1 (Has_stays_true strings.TrimSpace cs r eq_refl) eq_refl).
Defined.

(** ** What the aggregate queries depend on *)

Lemma count_step_comm (c : counters) (x y : LogInfo) :
  count_step (count_step c x) y = count_step (count_step c y) x.
Proof.
  unfold count_step.
  destruct (lni_Type x =? Info)%string, (lni_Type x =? Warn)%string,
    (lni_Type x =? Error)%string, (lni_Type x =? Success)%string,
    (lni_Type y =? Info)%string, (lni_Type y =? Warn)%string,
    (lni_Type y =? Error)%string, (lni_Type y =? Success)%string;
    reflexivity.
Qed.

Lemma count_fold_perm (l l' : list LogInfo) :
  Permutation l l' ->
  forall c, fold_left count_step l c = fold_left count_step l' c.
Proof.
  induction 1 as [|x l l' _ IH|x y l|l l' l'' _ IH1 _ IH2]; intros c; simpl.
  - reflexivity.
  - apply IH.
  - now rewrite count_step_comm.
  - now rewrite IH1, IH2.
Qed.

Lemma scan_perm (t : LogType) (loop : list LogInfo -> bool)
    (l l' : list LogInfo) :
  loop [] = false ->
  (forall x l, loop (x :: l)
               = if (lni_Type x =? t)%string then true else loop l) ->
  Permutation l l' -> loop l = loop l'.
Proof.
  intros Hnil Hcons Hp. apply eq_true_iff_eq.
  rewrite !(scan_exists t loop Hnil Hcons).
  split; intros (m & Hm & Ht); exists m; split; try exact Ht.
  - eapply Permutation_in; eassumption.
  - eapply Permutation_in; [symmetry|]; eassumption.
Qed.

(** X6. Prevailing and the four checks do not depend on the order of the
    messages: two logs holding the same messages in different orders
    give the same answers. *)
Theorem aggregates_ignore_order (l l' : list LogInfo) (r : Log) :
  Permutation l l' ->
  Prevailing (set_ln l r) = Prevailing (set_ln l' r) /\
  HasErrors (set_ln l r) = HasErrors (set_ln l' r) /\
  HasWarnings (set_ln l r) = HasWarnings (set_ln l' r) /\
  HasInfos (set_ln l r) = HasInfos (set_ln l' r) /\
  HasSucceses (set_ln l r) = HasSucceses (set_ln l' r).
Proof.
  intros Hp.
  unfold Prevailing, getDominantNoteType, count_all,
    HasErrors, HasWarnings, HasInfos, HasSucceses. cbn [ln set_ln].
  rewrite (count_fold_perm l l' Hp).
  repeat split;
    (eapply scan_perm; [reflexivity | intros; reflexivity | exact Hp]).
Qed.

Lemma aggregates_ignore_order_witness :
  let e := mkLogInfo Error "" "e" in
  let i := mkLogInfo Info "" "i" in
  Prevailing (mkLog "" [e; i; e] false) = Prevailing (mkLog "" [i; e; e] false).
Proof.
  intros e i.
  assert (Hp : Permutation [e; i; e] [i; e; e]) by apply perm_swap.
  exact (proj1 (aggregates_ignore_order [e; i; e] [i; e; e]
                  (mkLog "" [] false) Hp)).
Defined.

Lemma count_step_untallied (c : counters) (x : LogInfo) :
  tallied x = false -> count_step c x = c.
Proof.
  unfold tallied. intros H.
  apply orb_false_iff in H as [H HS]. apply orb_false_iff in H as [H HE].
  apply orb_false_iff in H as [HI HW].
  unfold count_step. now rewrite HI, HW, HE, HS.
Qed.

Lemma scan_filter_tallied (t : LogType) (loop : list LogInfo -> bool)
    (l : list LogInfo) :
  loop [] = false ->
  (forall x l, loop (x :: l)
               = if (lni_Type x =? t)%string then true else loop l) ->
  In t [Info; Warn; Error; Success] ->
  loop (List.filter tallied l) = loop l.
Proof.
  intros Hnil Hcons Ht. induction l as [|x l IH]; simpl; [reflexivity|].
  destruct (tallied x) eqn:Hx; simpl.
  - now rewrite !Hcons, IH.
  - rewrite Hcons, IH.
    assert (Hf : (lni_Type x =? t)%string = false).
    { unfold tallied in Hx.
      apply orb_false_iff in Hx as [Hx HS]. apply orb_false_iff in Hx as [Hx HE].
      apply orb_false_iff in Hx as [HI HW].
      simpl in Ht. destruct Ht as [<-|[<-|[<-|[<-|[]]]]]; assumption. }
    now rewrite Hf.
Qed.

(** X7. A message whose type is not one of INF, WRN, ERR and SUC, be it a
    declared constant or any other string, is seen neither by Prevailing
    nor by the four checks: the answers are those of the log with only
    its Info, Warn, Error and Success messages. *)
Theorem aggregates_see_tallied_only (r : Log) :
  let r' := set_ln (List.filter tallied (ln r)) r in
  count_all (ln r') = count_all (ln r) /\
  Prevailing r' = Prevailing r /\
  HasErrors r' = HasErrors r /\ HasWarnings r' = HasWarnings r /\
  HasInfos r' = HasInfos r /\ HasSucceses r' = HasSucceses r.
Proof.
  intros r'. subst r'. cbn [ln set_ln].
  assert (Hc : count_all (List.filter tallied (ln r)) = count_all (ln r)).
  { unfold count_all. generalize {| nfo := 0; wrn := 0; err := 0; suc := 0 |}.
    induction (ln r) as [|x l IH]; intros c; simpl; [reflexivity|].
    destruct (tallied x) eqn:Hx; simpl; [apply IH|].
    rewrite count_step_untallied by exact Hx. apply IH. }
  split; [exact Hc|].
  unfold Prevailing, getDominantNoteType,
    HasErrors, HasWarnings, HasInfos, HasSucceses. cbn [ln set_ln].
  rewrite Hc. repeat split;
    (eapply scan_filter_tallied;
     [reflexivity | intros; reflexivity | simpl; tauto]).
Qed.

Lemma scan_counted (t : LogType) (loop : list LogInfo -> bool)
    (l : list LogInfo) :
  loop [] = false ->
  (forall x l, loop (x :: l)
               = if (lni_Type x =? t)%string then true else loop l) ->
  loop l = (0 <? countType t l)%nat.
Proof.
  intros Hnil Hcons. unfold countType.
  induction l as [|x l IH]; simpl; [exact Hnil|].
  rewrite Hcons. now destruct (lni_Type x =? t)%string.
Qed.

(** X8. The category Prevailing returns is one the log holds: when the
    result is Info, Warn, Error or Success, the check of that category is
    true. *)
Theorem Prevailing_is_present (r : Log) :
  (Z.of_nat (length (ln r)) <= GoInt.MaxInt)%Z ->
  (Prevailing r = Info -> HasInfos r = true) /\
  (Prevailing r = Warn -> HasWarnings r = true) /\
  (Prevailing r = Error -> HasErrors r = true) /\
  (Prevailing r = Success -> HasSucceses r = true).
Proof.
  intros Hlen.
  unfold Prevailing, getDominantNoteType, HasInfos, HasWarnings, HasErrors,
    HasSucceses.
  rewrite (count_all_exact (ln r) Hlen).
  pose proof (dominant_cases (countType Info (ln r)) (countType Warn (ln r))
                (countType Error (ln r)) (countType Success (ln r))) as H.
  cbv zeta in H. destruct H as (H1 & H2 & H3 & H4 & _).
  rewrite (scan_counted Info HasInfos_loop), (scan_counted Warn HasWarnings_loop),
    (scan_counted Error HasErrors_loop), (scan_counted Success HasSucceses_loop)
    by (reflexivity || (intros; reflexivity)).
  repeat split; intros Hres; apply Nat.ltb_lt.
  - apply H1 in Hres. lia.
  - apply H2 in Hres. lia.
  - apply H3 in Hres. lia.
  - apply H4 in Hres. lia.
Qed.

Lemma Prevailing_is_present_witness :
  let r := AddError strings.TrimSpace ["a"; "b"]
             (AddInfo strings.TrimSpace ["c"] (NewLog "linux" "")) in
  HasErrors r = true.
Proof.
  intros r.
  assert (Hlen : (Z.of_nat (length (ln r)) <= GoInt.MaxInt)%Z)
    by (vm_compute; discriminate).
  exact (proj1 (proj2 (proj2 (Prevailing_is_present r Hlen))) eq_refl).
Defined.

Lemma countType_stamped (TrimSpace : string -> string) (t typ : LogType)
    (p : string) (msg : list string) :
  countType t (List.map (stamped TrimSpace typ p) msg)
  = if (typ =? t)%string then length msg else 0.
Proof.
  unfold countType. induction msg as [|m msg IH]; simpl.
  - now destruct (typ =? t)%string.
  - destruct (typ =? t)%string; simpl; now rewrite IH.
Qed.

(** X9. A fresh log filled by one categorised add with at least one
    string has that category prevailing; filled by AddAppMsg it has
    none. *)
Theorem single_category_prevails (TrimSpace : string -> string)
    (msg : list string) (GOOS prefix : string) :
  (0 < length msg)%nat ->
  (Z.of_nat (length msg) <= GoInt.MaxInt)%Z ->
  Prevailing (AddInfo TrimSpace msg (NewLog GOOS prefix)) = Info /\
  Prevailing (AddWarning TrimSpace msg (NewLog GOOS prefix)) = Warn /\
  Prevailing (AddError TrimSpace msg (NewLog GOOS prefix)) = Error /\
  Prevailing (AddSuccess TrimSpace msg (NewLog GOOS prefix)) = Success /\
  Prevailing (AddAppMsg TrimSpace msg (NewLog GOOS prefix)) = App.
Proof.
  intros Hpos Hlen.
  unfold AddInfo, AddWarning, AddError, AddSuccess, AddAppMsg.
  rewrite !add_loop. unfold Prevailing, getDominantNoteType. cbn [ln NewLog app].
  rewrite !count_all_exact by now rewrite length_map.
  rewrite !countType_stamped.
  cbn [String.eqb Ascii.eqb Bool.eqb andb Info Warn Error Success App].
  cbn [nfo wrn err suc]. rewrite !Z.gtb_ltb.
  assert (H0 : (0 <? Z.of_nat (length msg))%Z = true) by (apply Z.ltb_lt; lia).
  assert (H1 : (Z.of_nat (length msg) <? 0)%Z = false) by (apply Z.ltb_ge; lia).
  change (Z.of_nat 0) with 0%Z. rewrite H0, H1, Z.ltb_irrefl.
  repeat split; reflexivity.
Qed.

Lemma single_category_prevails_witness :
  Prevailing (AddWarning strings.TrimSpace ["w1"; "w2"] (NewLog "linux" "P"))
  = Warn.
Proof.
  assert (Hpos : (0 < length ["w1"; "w2"])%nat) by (simpl; lia).
  assert (Hlen : (Z.of_nat (length ["w1"; "w2"]) <= GoInt.MaxInt)%Z)
    by (vm_compute; discriminate).
  exact (proj1 (proj2 (single_category_prevails strings.TrimSpace
                         ["w1"; "w2"] "linux" "P" Hpos Hlen))).
Defined.

(** ** How rendering composes *)

Lemma concat_lines_app (l1 l2 : list string) :
  fold_right String.append "" (l1 ++ l2)
  = (fold_right String.append "" l1 ++ fold_right String.append "" l2)%string.
Proof.
  induction l1 as [|x l1 IH]; simpl; [reflexivity|].
  now rewrite IH, append_assoc.
Qed.

Lemma Log_ToString_app (p : string) (l1 l2 : list LogInfo) (w : bool) :
  Log_ToString (mkLog p (l1 ++ l2) w)
  = (Log_ToString (mkLog p l1 w) ++ Log_ToString (mkLog p l2 w))%string.
Proof.
  rewrite !Log_ToString_concat. cbn [ln osIsWin].
  now rewrite List.map_app, concat_lines_app.
Qed.

(** X10. The text of a log grows at its end: after a raw append or a
    categorised add, ToString is the text before followed by the text of
    the messages just appended.  Assigning the Prefix field does not
    change the text, since each message renders the prefix it was
    stamped with. *)
Theorem ToString_grows_at_end (TrimSpace : string -> string)
    (batch : list LogInfo) (msg : list string) (p : string) (r : Log) :
  Log_ToString (Append batch r)
    = (Log_ToString r ++ Log_ToString (set_ln batch r))%string /\
  (Log_ToString (AddInfo TrimSpace msg r)
     = (Log_ToString r ++ Log_ToString (AddInfo TrimSpace msg (Clear r)))%string /\
   Log_ToString (AddWarning TrimSpace msg r)
     = (Log_ToString r ++ Log_ToString (AddWarning TrimSpace msg (Clear r)))%string /\
   Log_ToString (AddError TrimSpace msg r)
     = (Log_ToString r ++ Log_ToString (AddError TrimSpace msg (Clear r)))%string /\
   Log_ToString (AddSuccess TrimSpace msg r)
     = (Log_ToString r ++ Log_ToString (AddSuccess TrimSpace msg (Clear r)))%string /\
   Log_ToString (AddAppMsg TrimSpace msg r)
     = (Log_ToString r ++ Log_ToString (AddAppMsg TrimSpace msg (Clear r)))%string) /\
  Log_ToString (setPrefix p r) = Log_ToString r.
Proof.
  destruct r as [q l w].
  unfold AddInfo, AddWarning, AddError, AddSuccess, AddAppMsg.
  rewrite !add_loop. unfold Append, Clear, set_ln, setPrefix.
  cbn [Prefix ln osIsWin app].
  rewrite !Log_ToString_app.
  repeat split; reflexivity.
Qed.

(** ** Slices handed out by Notes and later calls *)

(** X11. A raw append of no message leaves the log object and the whole
    store as they are: the built-in append returns the slice it was
    given and allocates nothing. *)
Theorem Append_nothing (growcap : nat -> nat -> nat) (r : Mem.Log)
    (h : Mem.store) :
  Mem.wf h (Mem.ln r) ->
  Mem.Append growcap [] r h = (r, h).
Proof.
  intros (arr & Harr & Hlen & Hcap). unfold Mem.Append, Mem.append.
  cbn [length]. rewrite Nat.add_0_r.
  assert (Hfit : (Mem.len (Mem.ln r) <=? Mem.cap (Mem.ln r))%nat = true)
    by now apply Nat.leb_le.
  rewrite Hfit, (cells_lookup _ _ _ Harr). cbn [app].
  rewrite take_drop, (list_insert_id _ _ _ Harr).
  destruct r as [p [a n c] w]. reflexivity.
Qed.

Lemma Append_nothing_witness :
  let g := fun _ n : nat => n in
  let st := Mem.AddInfo strings.TrimSpace g ["a"]
              (fst (Mem.NewLog "linux" "P" [])) (snd (Mem.NewLog "linux" "P" [])) in
  Mem.Append g [] (fst st) (snd st) = (fst st, snd st).
Proof.
  intros g st.
  assert (Hwf : Mem.wf (snd st) (Mem.ln (fst st))).
  { exists [mkLogInfo Info "P" "a"]. vm_compute. repeat split; lia. }
  exact (Append_nothing g (fst st) (snd st) Hwf).
Defined.

Lemma append_in_place_any (g g' : nat -> nat -> nat) (t : Mem.slice)
    (vs : list LogInfo) (h : Mem.store) :
  Mem.len t + length vs <= Mem.cap t ->
  Mem.append g t vs h = Mem.append g' t vs h.
Proof.
  intros Hfit. apply Nat.leb_le in Hfit. unfold Mem.append. now rewrite Hfit.
Qed.

(** The elements of a slice [s] survive an append to a slice [t], as long
    as [s] does not reach beyond [t] when both sit on one array. *)
Lemma append_frame (g : nat -> nat -> nat) (t s : Mem.slice)
    (vs : list LogInfo) (h : Mem.store) :
  Mem.wf h t ->
  Mem.ptr s < length h ->
  (Mem.ptr s = Mem.ptr t -> Mem.len s <= Mem.len t) ->
  Mem.elems (snd (Mem.append g t vs h)) s = Mem.elems h s
  /\ Mem.ptr s < length (snd (Mem.append g t vs h))
  /\ (Mem.ptr s = Mem.ptr (fst (Mem.append g t vs h)) ->
      Mem.len s <= Mem.len (fst (Mem.append g t vs h))).
Proof.
  intros (arr & Harr & Hlen & Hcap) Hs Hst. unfold Mem.append.
  destruct (Mem.len t + length vs <=? Mem.cap t)%nat eqn:Hfit; cbn [fst snd].
  - rewrite length_insert. cbn [Mem.ptr Mem.len].
    split; [|split; [exact Hs | intros E; specialize (Hst E); lia]].
    unfold Mem.elems.
    destruct (Nat.eq_dec (Mem.ptr s) (Mem.ptr t)) as [E|E].
    + specialize (Hst E). rewrite E, (cells_lookup _ _ _ Harr).
      erewrite (cells_lookup (<[_ := _]> h))
        by (apply list_lookup_insert_eq; eapply lookup_lt_Some; eassumption).
      rewrite take_app_le by (rewrite length_take; lia).
      rewrite take_take. f_equal. lia.
    + unfold Mem.cells. now rewrite list_lookup_insert_ne by congruence.
  - unfold Mem.alloc. cbn [fst snd Mem.ptr Mem.len].
    rewrite length_app. cbn [length].
    split; [|split; [lia | intros E; lia]].
    unfold Mem.elems, Mem.cells. now rewrite lookup_app_l by exact Hs.
Qed.

Section SnapshotFacts.

Variable TrimSpace : string -> string.
Variable growcap : nat -> nat -> nat.
Hypothesis growcap_fits : forall old n, n <= growcap old n.

Lemma addAll_frame (typ : LogType) (msg : list string) (r : Mem.Log)
    (h : Mem.store) (s : Mem.slice) :
  Mem.wf h (Mem.ln r) ->
  Mem.ptr s < length h ->
  (Mem.ptr s = Mem.ptr (Mem.ln r) -> Mem.len s <= Mem.len (Mem.ln r)) ->
  Mem.elems (snd (Mem.addAll TrimSpace growcap typ msg r h)) s = Mem.elems h s
  /\ Mem.ptr s < length (snd (Mem.addAll TrimSpace growcap typ msg r h))
  /\ (Mem.ptr s = Mem.ptr (Mem.ln (fst (Mem.addAll TrimSpace growcap typ msg r h))) ->
      Mem.len s <= Mem.len (Mem.ln (fst (Mem.addAll TrimSpace growcap typ msg r h)))).
Proof using growcap_fits.
  unfold Mem.addAll. revert r h.
  induction msg as [|m msg IH]; intros r h Hwf Hs Hst; cbn [fold_left fst snd].
  - auto.
  - set (x := {| lni_Type := typ; lni_Prefix := Mem.Prefix r;
                 lni_Message := TrimSpace m |}).
    change (Mem.addMessage TrimSpace growcap (Mem.ln r) (Mem.Prefix r) m typ h)
      with (Mem.append growcap (Mem.ln r) [x] h).
    destruct (append_spec growcap growcap_fits (Mem.ln r) [x] h Hwf) as [_ Hwf'].
    destruct (append_frame growcap (Mem.ln r) s [x] h Hwf Hs Hst)
      as (He & Hs' & Hst').
    destruct (Mem.append growcap (Mem.ln r) [x] h) as [s1 h1].
    cbn [fst snd] in *.
    destruct (IH (Mem.set_ln s1 r) h1 Hwf' Hs' Hst') as (IH1 & IH2 & IH3).
    rewrite IH1, He. auto.
Qed.

Lemma exec_frame (c : call) (r : Mem.Log) (h : Mem.store) (s : Mem.slice) :
  Mem.wf h (Mem.ln r) ->
  Mem.ptr s < length h ->
  (Mem.ptr s = Mem.ptr (Mem.ln r) -> Mem.len s <= Mem.len (Mem.ln r)) ->
  Mem.elems (snd (Mem.exec TrimSpace growcap c r h)) s = Mem.elems h s
  /\ Mem.ptr s < length (snd (Mem.exec TrimSpace growcap c r h))
  /\ (Mem.ptr s = Mem.ptr (Mem.ln (fst (Mem.exec TrimSpace growcap c r h))) ->
      Mem.len s <= Mem.len (Mem.ln (fst (Mem.exec TrimSpace growcap c r h)))).
Proof using growcap_fits.
  intros Hwf Hs Hst. destruct c; cbn [Mem.exec].
  1-5: now apply addAll_frame.
  - unfold Mem.Append.
    destruct (append_frame growcap (Mem.ln r) s batch h Hwf Hs Hst)
      as (He & Hs' & Hst').
    destruct (Mem.append growcap (Mem.ln r) batch h) as [s1 h1].
    cbn [fst snd Mem.set_ln Mem.ln] in *. auto.
  - unfold Mem.Clear, Mem.empty, Mem.alloc.
    cbn [fst snd Mem.set_ln Mem.ln Mem.ptr Mem.len].
    rewrite length_app. cbn [length].
    split; [|split; [lia | intros E; lia]].
    unfold Mem.elems, Mem.cells. now rewrite lookup_app_l by exact Hs.
  - cbn [fst snd Mem.setPrefix Mem.ln]. auto.
Qed.

Lemma run_frame (cs : list call) (r : Mem.Log) (h : Mem.store)
    (s : Mem.slice) :
  Mem.wf h (Mem.ln r) ->
  Mem.ptr s < length h ->
  (Mem.ptr s = Mem.ptr (Mem.ln r) -> Mem.len s <= Mem.len (Mem.ln r)) ->
  Mem.elems (snd (Mem.run TrimSpace growcap cs r h)) s = Mem.elems h s.
Proof using growcap_fits.
  unfold Mem.run. revert r h.
  induction cs as [|c cs IH]; intros r h Hwf Hs Hst; cbn [fold_left fst snd].
  - reflexivity.
  - destruct (exec_refines TrimSpace growcap growcap_fits c r h Hwf) as [_ Hwf'].
    destruct (exec_frame c r h s Hwf Hs Hst) as (He & Hs' & Hst').
    destruct (Mem.exec TrimSpace growcap c r h) as [r1 h1].
    cbn [fst snd] in *. rewrite (IH r1 h1 Hwf' Hs' Hst'). exact He.
Qed.

End SnapshotFacts.

(** X12. A slice obtained from Notes keeps the messages it had: no later
    call on the log, Clear included, changes what that slice holds, and
    messages added later do not appear in it. *)
Theorem Notes_snapshot_stable (TrimSpace : string -> string)
    (growcap : nat -> nat -> nat) (cs : list call) (r : Mem.Log)
    (h : Mem.store) :
  (forall old n, n <= growcap old n) ->
  Mem.wf h (Mem.ln r) ->
  Mem.elems (snd (Mem.run TrimSpace growcap cs r h)) (Mem.Notes r)
  = Mem.elems h (Mem.Notes r).
Proof.
  intros Hg Hwf. apply run_frame; try assumption.
  - destruct Hwf as (arr & Harr & _). eapply lookup_lt_Some; eassumption.
  - intros _. unfold Mem.Notes. lia.
Qed.

Lemma Notes_snapshot_stable_witness :
  let g := fun old n : nat => Nat.max n (2 * old + 2) in
  let st := Mem.AddInfo strings.TrimSpace g ["a"]
              (fst (Mem.NewLog "linux" "P" [])) (snd (Mem.NewLog "linux" "P" [])) in
  let cs := [ CallAddError ["b"]; CallClear; CallAddInfo ["c"; "d"; "e"] ] in
  Mem.elems (snd (Mem.run strings.TrimSpace g cs (fst st) (snd st)))
    (Mem.Notes (fst st))
  = Mem.elems (snd st) (Mem.Notes (fst st)).
Proof.
  intros g st cs.
  assert (Hg : forall old n : nat, n <= g old n) by (intros; unfold g; lia).
  assert (Hwf : Mem.wf (snd st) (Mem.ln (fst st))).
  { exists [mkLogInfo Info "P" "a"; Mem.zero]. vm_compute. repeat split; lia. }
  exact (Notes_snapshot_stable strings.TrimSpace g cs (fst st) (snd st) Hg Hwf).
Defined.

(** X13. When a raw append does not fit the capacity, the log moves to a
    fresh array: an assignment through a slice that Notes returned before
    the append no longer reaches the log. *)
Theorem stale_slice_after_growth (growcap : nat -> nat -> nat)
    (batch : list LogInfo) (r : Mem.Log) (h : Mem.store) (i : nat)
    (v : LogInfo) :
  Mem.wf h (Mem.ln r) ->
  Mem.cap (Mem.ln r) < Mem.len (Mem.ln r) + length batch ->
  let st := Mem.Append growcap batch r h in
  Mem.ptr (Mem.ln (fst st)) <> Mem.ptr (Mem.Notes r) /\
  match Mem.setIndex (Mem.Notes r) i v (snd st) with
  | Some h' => Mem.elems h' (Mem.ln (fst st)) = Mem.elems (snd st) (Mem.ln (fst st))
  | None => Mem.len (Mem.Notes r) <= i
  end.
Proof.
  intros (arr & Harr & Hlen & Hcap) Hbig st.
  assert (Hp : Mem.ptr (Mem.ln r) < length h)
    by (eapply lookup_lt_Some; eassumption).
  subst st. unfold Mem.Append, Mem.append, Mem.Notes.
  apply Nat.leb_gt in Hbig. rewrite Hbig. unfold Mem.alloc.
  cbn [fst snd Mem.set_ln Mem.ln Mem.ptr]. split; [lia|].
  unfold Mem.setIndex.
  destruct (i <? Mem.len (Mem.ln r))%nat eqn:Hi;
    [|now apply Nat.ltb_ge in Hi].
  unfold Mem.elems, Mem.cells. cbn [Mem.ptr Mem.len].
  now rewrite list_lookup_insert_ne by lia.
Qed.

Lemma stale_slice_after_growth_witness :
  let g := fun _ n : nat => n in
  let st0 := Mem.AddInfo strings.TrimSpace g ["a"]
               (fst (Mem.NewLog "linux" "P" [])) (snd (Mem.NewLog "linux" "P" [])) in
  let st := Mem.Append g [mkLogInfo Warn "" "b"] (fst st0) (snd st0) in
  Mem.ptr (Mem.ln (fst st)) <> Mem.ptr (Mem.Notes (fst st0)).
Proof.
  intros g st0 st.
  assert (Hwf : Mem.wf (snd st0) (Mem.ln (fst st0))).
  { exists [mkLogInfo Info "P" "a"]. vm_compute. repeat split; lia. }
  assert (Hbig : Mem.cap (Mem.ln (fst st0))
                 < Mem.len (Mem.ln (fst st0)) + length [mkLogInfo Warn "" "b"])
    by (vm_compute; lia).
  exact (proj1 (stale_slice_after_growth g [mkLogInfo Warn "" "b"]
                  (fst st0) (snd st0) 0 Mem.zero Hwf Hbig)).
Defined.

(** X14. When a raw append fits the capacity, the log stays on its
    array: an assignment through a slice that Notes returned before the
    append, at an index that slice covers, replaces that stored message
    in the log as it is after the append. *)
Theorem shared_slice_within_capacity (growcap : nat -> nat -> nat)
    (batch : list LogInfo) (r : Mem.Log) (h : Mem.store) (i : nat)
    (v : LogInfo) :
  Mem.wf h (Mem.ln r) ->
  Mem.len (Mem.ln r) + length batch <= Mem.cap (Mem.ln r) ->
  let st := Mem.Append growcap batch r h in
  Mem.ptr (Mem.ln (fst st)) = Mem.ptr (Mem.Notes r) /\
  match Mem.setIndex (Mem.Notes r) i v (snd st) with
  | Some h' =>
      Mem.elems h' (Mem.ln (fst st))
      = <[i := v]> (Mem.elems (snd st) (Mem.ln (fst st)))
  | None => Mem.len (Mem.Notes r) <= i
  end.
Proof.
  intros Hwf Hfit st.
  set (g' := fun _ n : nat => n).
  assert (Hg' : forall old n : nat, n <= g' old n) by (intros; unfold g'; lia).
  destruct (append_spec g' Hg' (Mem.ln r) batch h Hwf) as [_ Hwf'].
  subst st. unfold Mem.Append.
  rewrite (append_in_place_any growcap g') by exact Hfit.
  assert (Hshape : fst (Mem.append g' (Mem.ln r) batch h)
                   = {| Mem.ptr := Mem.ptr (Mem.ln r);
                        Mem.len := Mem.len (Mem.ln r) + length batch;
                        Mem.cap := Mem.cap (Mem.ln r) |}).
  { unfold Mem.append. apply Nat.leb_le in Hfit. now rewrite Hfit. }
  destruct (Mem.append g' (Mem.ln r) batch h) as [t h1].
  cbn [fst snd Mem.set_ln Mem.ln] in *. subst t.
  unfold Mem.Notes. split; [reflexivity|].
  destruct (Mem.setIndex (Mem.ln r) i v h1) as [h'|] eqn:Hset.
  - assert (Hi : i < Mem.len (Mem.ln r)).
    { unfold Mem.setIndex in Hset.
      destruct (i <? Mem.len (Mem.ln r))%nat eqn:E; [|discriminate].
      now apply Nat.ltb_lt. }
    eapply setIndex_elems; [exact Hwf'|].
    unfold Mem.setIndex in *. cbn [Mem.ptr Mem.len].
    assert (E1 : (i <? Mem.len (Mem.ln r))%nat = true) by now apply Nat.ltb_lt.
    assert (E2 : (i <? Mem.len (Mem.ln r) + length batch)%nat = true)
      by (apply Nat.ltb_lt; lia).
    rewrite E1 in Hset. now rewrite E2.
  - unfold Mem.setIndex in Hset.
    destruct (i <? Mem.len (Mem.ln r))%nat eqn:E; [discriminate|].
    now apply Nat.ltb_ge.
Qed.

Lemma shared_slice_within_capacity_witness :
  let g := fun old n : nat => Nat.max n (2 * old + 2) in
  let st0 := Mem.AddInfo strings.TrimSpace g ["a"]
               (fst (Mem.NewLog "linux" "P" [])) (snd (Mem.NewLog "linux" "P" [])) in
  let st := Mem.Append g [mkLogInfo Warn "" "b"] (fst st0) (snd st0) in
  Mem.ptr (Mem.ln (fst st)) = Mem.ptr (Mem.Notes (fst st0)).
Proof.
  intros g st0 st.
  assert (Hwf : Mem.wf (snd st0) (Mem.ln (fst st0))).
  { exists [mkLogInfo Info "P" "a"; Mem.zero]. vm_compute. repeat split; lia. }
  assert (Hfit : Mem.len (Mem.ln (fst st0)) + length [mkLogInfo Warn "" "b"]
                 <= Mem.cap (Mem.ln (fst st0)))
    by (vm_compute; lia).
  exact (proj1 (shared_slice_within_capacity g [mkLogInfo Warn "" "b"]
                  (fst st0) (snd st0) 0 Mem.zero Hwf Hfit)).
Defined.
